(** * Two-column hypergraph layout (hypernetx/drawing/two_column.py)

    A shallow embedding of [layout_two_column], [draw_hyper_edges], the two
    labelling passes and [draw], followed by the properties of the layout
    and of the renderer.

    Conventions of the embedding.
    - Identifiers are Python ints or strs ([ident]); the source tells
      hyperedges from nodes with [isinstance(edge, str)].
    - Numbers are exact rationals ([Q]): [i + offset + (height - n) / 2]
      is computed without rounding.
    - A raised exception is [None] in the [option] monad.
    - [networkx] is an interface: the layout is stated for any
      implementation of [connected_components] and [spectral_ordering]. *)

From Stdlib Require Import ZArith QArith Lqa Lia.
From stdpp Require Import base option list sorting gmap strings.

Set Default Proof Using "Type".

(** ** Identifiers *)

Inductive ident : Type :=
| IInt (n : Z)
| IStr (s : string).

#[global] Instance ident_eq_dec : EqDecision ident.
Proof. solve_decision. Defined.

Definition ident_to_sum (v : ident) : Z + string :=
  match v with IInt n => inl n | IStr s => inr s end.

Definition ident_of_sum (x : Z + string) : ident :=
  match x with inl n => IInt n | inr s => IStr s end.

#[global] Instance ident_countable : Countable ident.
Proof.
  refine (inj_countable' ident_to_sum ident_of_sum _).
  intros []; reflexivity.
Defined.

(** [isinstance(v, str)] *)
Definition is_str (v : ident) : bool :=
  match v with IStr _ => true | IInt _ => false end.

(** ** The hypergraph collaborator *)

(** A hyperedge: its [uid] and the node identifiers met when iterating it. *)
Record Edge : Type := mkEdge { uid : ident; elements : list ident }.

(** [H.nodes] and [H.edges()], in iteration order. *)
Record Hypergraph : Type := mkHypergraph {
  H_nodes : list ident;
  H_edges : list Edge
}.

Definition edge_uids (H : Hypergraph) : list ident := uid <$> H_edges H.

(** ** The bipartite graph *)

(** A networkx graph restricted to what the layout reads: the node table
    (identifier and [bipartite] attribute, in insertion order) and the
    edge list. *)
Record Graph : Type := mkGraph {
  G_nodes : list (ident * nat);
  G_adj : list (ident * ident)
}.

Definition vertices (G : Graph) : list ident := fst <$> G_nodes G.

(** [G.add_node(v, bipartite=tag)]: a known node keeps its place and gets
    the new attribute, a new one is appended. *)
Fixpoint add_node (v : ident) (tag : nat) (ns : list (ident * nat))
  : list (ident * nat) :=
  match ns with
  | [] => [(v, tag)]
  | (u, t) :: ns' =>
      if decide (u = v) then (u, tag) :: ns' else (u, t) :: add_node v tag ns'
  end.

Definition add_nodes_from (vs : list ident) (tag : nat)
  (ns : list (ident * nat)) : list (ident * nat) :=
  foldl (λ acc v, add_node v tag acc) ns vs.

(** Modelled from the spec: [Hypergraph.bipartite] is not part of the
    drawing module. The spec's external interface asks for "nodes tagged
    0, hyperedges tagged 1, edges = membership". *)
Definition bipartite (H : Hypergraph) : Graph :=
  {| G_nodes := add_nodes_from (H_nodes H) 0
                  (add_nodes_from (edge_uids H) 1 []);
     G_adj := e ← H_edges H; (λ v, (v, uid e)) <$> elements e |}.

(** [G.nodes[v]["bipartite"]] *)
Fixpoint attr_of (v : ident) (ns : list (ident * nat)) : option nat :=
  match ns with
  | [] => None
  | (u, t) :: ns' => if decide (u = v) then Some t else attr_of v ns'
  end.

Definition node_attr (G : Graph) (v : ident) : option nat :=
  attr_of v (G_nodes G).

(** [G.subgraph(ci)]: the nodes of [ci] that [G] has, with their
    attributes, and the edges of [G] inside [ci]. *)
Definition subgraph (G : Graph) (ci : list ident) : Graph :=
  {| G_nodes := omap (λ v, pair v <$> node_attr G v) ci;
     G_adj := filter (λ p, p.1 ∈ ci ∧ p.2 ∈ ci) (G_adj G) |}.

(** ** The networkx interface *)

(** [connected_components G] lists the components in the order in which
    they are yielded, each in the iteration order of its subgraph;
    [spectral_ordering Gi] is [None] when the routine raises. *)
Record networkx : Type := mkNetworkx {
  connected_components : Graph → list (list ident);
  spectral_ordering : Graph → option (list ident)
}.

(** ** Python builtins used by the layout *)

(** [{v: i for i, v in enumerate(l)}], the index counted from [i]. *)
Fixpoint index_dict_from (i : nat) (l : list ident) (m : gmap ident Z)
  : gmap ident Z :=
  match l with
  | [] => m
  | v :: l' => index_dict_from (S i) l' (<[v := Z.of_nat i]> m)
  end.

Definition index_dict (l : list ident) : gmap ident Z :=
  index_dict_from 0 l ∅.

(** Stable insertion of a keyed item in front of a sorted list. *)
Fixpoint insert_keyed (k : Z) (v : ident) (l : list (Z * ident))
  : list (Z * ident) :=
  match l with
  | [] => [(k, v)]
  | (k', v') :: l' =>
      if (k <=? k')%Z then (k, v) :: l else (k', v') :: insert_keyed k v l'
  end.

Definition sort_keyed (l : list (Z * ident)) : list (Z * ident) :=
  foldr (λ p acc, insert_keyed p.1 p.2 acc) [] l.

(** [sorted(l, key=key)] where [key] is a [dict.get]: the keys are ints or
    [None]. Lists shorter than two are returned without any comparison;
    otherwise every item takes part in a comparison, and comparing [None]
    raises [TypeError]. The sort is stable. *)
Definition py_sorted (key : ident → option Z) (l : list ident)
  : option (list ident) :=
  match l with
  | [] | [_] => Some l
  | _ =>
      keyed ← mapM (λ v, (λ k, (k, v)) <$> key v) l;
      Some (snd <$> sort_keyed keyed)
  end.

(** ** layout_two_column *)

Definition point : Type := Q * Q.

(** The body of [stack]'s loop for the item of index [i]. *)
Definition stack_point (offset : Q) (n : nat) (x : Q) (height : nat)
  (flip_orientation : bool) (i : nat) : point :=
  let y := (inject_Z (Z.of_nat i) + offset
            + inject_Z (Z.of_nat height - Z.of_nat n) / 2)%Q in
  if flip_orientation then (y, x) else (x, y).

Fixpoint stack_from (offset : Q) (n : nat) (x : Q) (height : nat)
  (flip_orientation : bool) (i : nat) (vs : list ident)
  (pos : gmap ident point) : gmap ident point :=
  match vs with
  | [] => pos
  | v :: vs' =>
      stack_from offset n x height flip_orientation (S i) vs'
        (<[v := stack_point offset n x height flip_orientation i]> pos)
  end.

(** The nested function [stack]; [offset] and [pos] are the enclosing
    function's variables, read and written through the closure. *)
Definition stack (offset : Q) (pos : gmap ident point) (vs : list ident)
  (x : Q) (height : nat) (flip_orientation : bool) : gmap ident point :=
  stack_from offset (length vs) x height flip_orientation 0 vs pos.

(** Lines 47-52: the sort key of one component. *)
Definition component_key (nx : networkx) (nodeorder : option (gmap ident Z))
  (Gi : Graph) : option (ident → option Z) :=
  match nodeorder with
  | None =>
      order ← spectral_ordering nx Gi;
      Some (λ v, index_dict order !! v)
  | Some no =>
      let edge_names := filter (λ v, is_str v = true) (vertices Gi) in
      let edgeorder := index_dict edge_names in
      Some (λ v, (edgeorder ∪ no) !! v)
  end.

(** [[v for v, d in Gi.nodes(data=True) if d["bipartite"] == j]] *)
Definition side (Gi : Graph) (j : nat) : list ident :=
  fst <$> filter (λ p, p.2 = j) (G_nodes Gi).

(** Lines 45-57: the two sorted columns of component [ci]. *)
Definition component_columns (nx : networkx)
  (nodeorder : option (gmap ident Z)) (G : Graph) (ci : list ident)
  : option (list ident * list ident) :=
  let Gi := subgraph G ci in
  key ← component_key nx nodeorder Gi;
  ci_vertices ← py_sorted key (side Gi 0);
  ci_edges ← py_sorted key (side Gi 1);
  Some (ci_vertices, ci_edges).

Record layout_state : Type := mkState {
  st_offset : Q;
  st_pos : gmap ident point
}.

(** One iteration of the loop over the components (lines 44-63). *)
Definition layout_component (nx : networkx) (G : Graph) (spacing width : Q)
  (flip_orientation : bool) (nodeorder : option (gmap ident Z))
  (st : layout_state) (ci : list ident) : option layout_state :=
  '(ci_vertices, ci_edges) ← component_columns nx nodeorder G ci;
  let height := Nat.max (length ci_vertices) (length ci_edges) in
  let pos1 := stack (st_offset st) (st_pos st) ci_vertices 0 height
                flip_orientation in
  let pos2 := stack (st_offset st) pos1 ci_edges width height
                flip_orientation in
  Some {| st_offset := (st_offset st + (inject_Z (Z.of_nat height) + spacing))%Q;
          st_pos := pos2 |}.

Fixpoint layout_loop (nx : networkx) (G : Graph) (spacing width : Q)
  (flip_orientation : bool) (nodeorder : option (gmap ident Z))
  (cis : list (list ident)) (st : layout_state) : option layout_state :=
  match cis with
  | [] => Some st
  | ci :: rest =>
      st' ← layout_component nx G spacing width flip_orientation nodeorder
              st ci;
      layout_loop nx G spacing width flip_orientation nodeorder rest st'
  end.

Definition layout_two_column (nx : networkx) (H : Hypergraph)
  (spacing width : Q) (flip_orientation : bool)
  (nodeorder : option (gmap ident Z)) : option (gmap ident point) :=
  let G := bipartite H in
  st_pos <$> layout_loop nx G spacing width flip_orientation nodeorder
               (connected_components nx G) {| st_offset := 0; st_pos := ∅ |}.

(** ** The layout seen component by component *)

(** What the loop does for one component: the offset in force when the
    component is stacked and its two sorted columns. *)
Record placement : Type := mkPlacement {
  pl_offset : Q;
  pl_vertices : list ident;
  pl_edges : list ident
}.

Definition pl_height (p : placement) : nat :=
  Nat.max (length (pl_vertices p)) (length (pl_edges p)).

(** The successive values of [offset] and of the sorted columns, computed
    as the loop computes them but without the position map. *)
Fixpoint layout_trace (nx : networkx) (G : Graph) (spacing : Q)
  (nodeorder : option (gmap ident Z)) (cis : list (list ident))
  (offset : Q) : option (list placement) :=
  match cis with
  | [] => Some []
  | ci :: rest =>
      '(ci_vertices, ci_edges) ← component_columns nx nodeorder G ci;
      let height := Nat.max (length ci_vertices) (length ci_edges) in
      tr ← layout_trace nx G spacing nodeorder rest
             (offset + (inject_Z (Z.of_nat height) + spacing))%Q;
      Some (mkPlacement offset ci_vertices ci_edges :: tr)
  end.

(** The two calls of [stack] for one component. *)
Definition place (width : Q) (flip_orientation : bool)
  (pos : gmap ident point) (p : placement) : gmap ident point :=
  stack (pl_offset p)
    (stack (pl_offset p) pos (pl_vertices p) 0 (pl_height p) flip_orientation)
    (pl_edges p) width (pl_height p) flip_orientation.

(** The coordinate along which the components are stacked. *)
Definition stacking_coord (flip_orientation : bool) (p : point) : Q :=
  if flip_orientation then p.1 else p.2.

(** The coordinate that tells the node column from the edge column. *)
Definition column_coord (flip_orientation : bool) (p : point) : Q :=
  if flip_orientation then p.2 else p.1.

Definition transpose (p : point) : point := (p.2, p.1).

(** ** A small networkx for running the layout *)

Module NxRef.

Definition neighbors (G : Graph) (v : ident) : list ident :=
  omap (λ p, if decide (p.1 = v) then Some p.2
             else if decide (p.2 = v) then Some p.1 else None) (G_adj G).

(** Breadth-first search from a queue; [seen] is kept in discovery
    order. Every vertex enters the queue at most once, so one unit of
    fuel per vertex is enough. *)
Fixpoint plain_bfs (fuel : nat) (G : Graph) (queue seen : list ident)
  : list ident :=
  match fuel with
  | O => seen
  | S fuel' =>
      match queue with
      | [] => seen
      | v :: queue' =>
          let fresh := filter (λ u, u ∉ seen) (remove_dups (neighbors G v)) in
          plain_bfs fuel' G (queue' ++ fresh) (seen ++ fresh)
      end
  end.

Fixpoint components_from (G : Graph) (vs seen : list ident)
  : list (list ident) :=
  match vs with
  | [] => []
  | v :: vs' =>
      if decide (v ∈ seen) then components_from G vs' seen
      else
        let c := plain_bfs (length (G_nodes G)) G [v] [v] in
        c :: components_from G vs' (seen ++ c)
  end.

Definition components (G : Graph) : list (list ident) :=
  components_from G (vertices G) [].

(** The ordering networkx returns for components of at most two
    vertices: the vertices as they come; an empty graph is an error. *)
Definition identity_ordering (G : Graph) : option (list ident) :=
  match vertices G with
  | [] => None
  | vs => Some vs
  end.


Definition nx : networkx := mkNetworkx components identity_ordering.

End NxRef.

(** ** Sample hypergraphs *)

Definition a_ : ident := IInt 1.
Definition b_ : ident := IInt 2.
Definition c_ : ident := IInt 3.
Definition e1_ : ident := IStr "e1".
Definition e2_ : ident := IStr "e2".

(** Nodes a, b and one hyperedge e1 = {a, b}. *)
Definition H_pair : Hypergraph :=
  mkHypergraph [a_; b_] [mkEdge e1_ [a_; b_]].

(** Two disjoint hyperedges e1 = {a}, e2 = {b}. *)
Definition H_two : Hypergraph :=
  mkHypergraph [a_; b_] [mkEdge e1_ [a_]; mkEdge e2_ [b_]].

(** A single node that belongs to no hyperedge. *)
Definition H_lone : Hypergraph := mkHypergraph [a_] [].


(** Positions for a, b and e1. *)
Definition pos_pair : gmap ident point :=
  {[ a_ := (0, 0)%Q; b_ := (0, 1)%Q; e1_ := (1, 1 # 2)%Q ]}.

(** ** The renderer *)

(** A value of a keyword argument: a plain value, a dict from hyperedge
    identifiers to palette colours, or a list aligned with the pairs. *)
Inductive kwvalue : Type :=
| KPlain (s : string)
| KDict (d : gmap ident nat)
| KList (l : list (option nat)).

#[global] Instance kwvalue_eq_dec : EqDecision kwvalue.
Proof. solve_decision. Defined.

(** What the plotting surface receives. *)
Inductive artist : Type :=
| LineCollection (segments : list (point * point)) (color : option string)
    (kwargs : gmap string kwvalue)
| PatchCollection (centers : list point) (radius : Q)
    (color : string + list string)
| Annotate (text : ident + string) (xy : point) (ha va : string)
| SetAspect
| AutoscaleView
| AxisOff.

(** [nodecolor]: absent, one colour, or a dict from nodes to colours. *)
Inductive nodecolor_arg : Type :=
| NcNone
| NcFlat (c : string)
| NcDict (d : gmap ident string).

(** [[(node, edge.uid) for edge in H.edges() for node in edge]] *)
Definition pairs (H : Hypergraph) : list (ident * ident) :=
  e ← H_edges H; (λ node, (node, uid e)) <$> elements e.

(** [[(pos[node], pos[edge_id]) for node, edge_id in pairs]]; a missing
    key raises [KeyError]. *)
Definition segments (pos : gmap ident point) (ps : list (ident * ident))
  : option (list (point * point)) :=
  mapM (λ p, a ← pos !! p.1; b ← pos !! p.2; Some (a, b)) ps.

(** Lines 95-98: a dict-valued keyword becomes a list aligned with the
    pairs. *)
Definition expand_kwargs (ps : list (ident * ident))
  (kwargs : gmap string kwvalue) : gmap string kwvalue :=
  (λ v, match v with
        | KDict d => KList ((λ p, d !! p.2) <$> ps)
        | _ => v
        end) <$> kwargs.

Definition draw_hyper_edges (H : Hypergraph) (pos : gmap ident point)
  (ax : list artist) (edgecolor : option string) (nodecolor : nodecolor_arg)
  (nodesize : Q) (kwargs : gmap string kwvalue) : option (list artist) :=
  let ps := pairs H in
  let kwargs' := expand_kwargs ps kwargs in
  segs ← segments pos ps;
  (* [color=edgecolor, zorder=0, **kwargs]: a keyword given twice raises *)
  guard (kwargs' !! "color" = None ∧ kwargs' !! "zorder" = None);;
  let ax1 := ax ++ [LineCollection segs edgecolor kwargs'] in
  let nodes := H_nodes H in
  patches ← mapM (λ node, pos !! node) nodes;
  color ← match nodecolor with
          | NcNone => Some (inl "red")
          | NcFlat c => Some (inl c)
          | NcDict d => inr <$> mapM (λ node, d !! node) nodes
          end;
  Some (ax1 ++ [PatchCollection patches nodesize color]).

(** [labels.get(uid, uid)] *)
Definition label_of (labels : gmap ident string) (v : ident)
  : ident + string :=
  match labels !! v with
  | Some s => inr s
  | None => inl v
  end.

(** The loop shared by the two labelling passes; [at_] gives the anchor
    of a label from the position of its vertex. *)
Definition annotate_all (pos : gmap ident point)
  (labels : gmap ident string) (at_ : point → point) (ha va : string)
  (points : list ident) : option (list artist) :=
  mapM (λ v, xy ← pos !! v; Some (Annotate (label_of labels v) (at_ xy) ha va))
    points.

Definition draw_hyper_column_labels (H : Hypergraph)
  (pos : gmap ident point) (labels : gmap ident string)
  (with_node_labels with_edge_labels : bool) (ax : list artist)
  : option (list artist) :=
  ns ← (if with_node_labels
        then annotate_all pos labels id "right" "center" (H_nodes H)
        else Some []);
  es ← (if with_edge_labels
        then annotate_all pos labels id "left" "center" (edge_uids H)
        else Some []);
  Some (ax ++ ns ++ es).

Definition draw_hyper_row_labels (H : Hypergraph)
  (pos : gmap ident point) (labels : gmap ident string)
  (with_node_labels with_edge_labels : bool) (ax : list artist)
  : option (list artist) :=
  let below (xy : point) : point := (xy.1, (xy.2 - (15 # 100))%Q) in
  ns ← (if with_node_labels
        then annotate_all pos labels below "center" "top" (H_nodes H)
        else Some []);
  es ← (if with_edge_labels
        then annotate_all pos labels below "center" "bottom" (edge_uids H)
        else Some []);
  Some (ax ++ ns ++ es).

(** [{e.uid: plt.cm.tab10(i % 10) for i, e in enumerate(H.edges())}]; a
    colour of the palette is its index. *)
Fixpoint color_cycle_from (i : nat) (es : list ident) (m : gmap ident nat)
  : gmap ident nat :=
  match es with
  | [] => m
  | e :: es' => color_cycle_from (S i) es' (<[e := i mod 10]> m)
  end.

Definition color_cycle (H : Hypergraph) : gmap ident nat :=
  color_cycle_from 0 (edge_uids H) ∅.

(** The caller's dict objects: a store from references to dicts. An
    argument that is a dict is passed as its reference. *)
Definition loc : Type := positive.

(** The arguments of [draw] other than [H], [ax] and the store. *)
Record draw_args : Type := mkDrawArgs {
  with_node_labels : bool;
  with_edge_labels : bool;
  with_node_counts : bool;
  with_edge_counts : bool;
  with_color : bool;
  edge_kwargs : option loc;
  column_spacing : Q;
  flip_orientation : bool;
  edgecolor : option string;
  nodecolor : nodecolor_arg;
  nodeorder : option (gmap ident Z);
  nodesize : Q
}.

Definition default_args : draw_args :=
  mkDrawArgs true true false false true None 1 false None NcNone None
    (1 # 10).

Section Draw.

(** [get_frozenset_label] of [.util], the label-formatting collaborator. *)
Variable get_frozenset_label : list ident → bool → gmap ident string.
Variable nx : networkx.

(** [edge_kwargs = edge_kwargs or {}]: an absent or empty dict is replaced
    by a new one, any other dict is used as it is. *)
Definition edge_kwargs_or_new (σ : gmap loc (gmap string kwvalue))
  (arg : option loc) : loc * gmap loc (gmap string kwvalue) :=
  let new := fresh (dom σ) in
  match arg with
  | None => (new, <[new := ∅]> σ)
  | Some l =>
      match σ !! l with
      | Some d => if decide (d = ∅) then (new, <[new := ∅]> σ) else (l, σ)
      | None => (new, <[new := ∅]> σ)
      end
  end.

(** What [draw] does once the position map is there (lines 249-274),
    from the store left by line 243. *)
Definition draw_with_pos (H : Hypergraph) (args : draw_args)
  (pos : gmap ident point) (kw : loc) (σ : gmap loc (gmap string kwvalue))
  (ax : list artist) : gmap loc (gmap string kwvalue) * option (list artist) :=
  let V := H_nodes H in
  let E := edge_uids H in
  let labels :=
    get_frozenset_label E (with_edge_counts args)
      ∪ get_frozenset_label V (with_node_counts args) in
  let σ1 :=
    if with_color args
    then alter (λ d, <["color" := KDict (color_cycle H)]> d) kw σ
    else σ in
  (σ1,
   ax1 ← draw_hyper_edges H pos ax (edgecolor args) (nodecolor args)
           (nodesize args) (default ∅ (σ1 !! kw));
   ax2 ← (if flip_orientation args
          then draw_hyper_row_labels H pos labels (with_node_labels args)
                 (with_edge_labels args) ax1
          else draw_hyper_column_labels H pos labels (with_node_labels args)
                 (with_edge_labels args) ax1);
   Some (ax2 ++ [SetAspect; AutoscaleView; AxisOff])).

(** [draw]: the store after the call, and the plotting surface unless an
    exception was raised. *)
Definition draw (H : Hypergraph) (args : draw_args)
  (σ : gmap loc (gmap string kwvalue)) (ax : list artist)
  : gmap loc (gmap string kwvalue) * option (list artist) :=
  let '(kw, σ0) := edge_kwargs_or_new σ (edge_kwargs args) in
  match layout_two_column nx H 0 (column_spacing args)
          (flip_orientation args) (nodeorder args) with
  | None => (σ0, None)
  | Some pos => draw_with_pos H args pos kw σ0 ax
  end.

End Draw.

(** * Vocabulary of the statements *)

(** ** Sorted columns *)

(** [u] may stand before [v]: their ranks, when both have one, are in
    order. *)
Definition rank_le (key : ident → option Z) (u v : ident) : Prop :=
  ∀ ku kv, key u = Some ku → key v = Some kv → (ku ≤ kv)%Z.

Definition sorted_by (key : ident → option Z) (l : list ident) : Prop :=
  StronglySorted (rank_le key) l.

(** ** The items of a placement *)

Definition pl_items (p : placement) : list ident :=
  pl_vertices p ++ pl_edges p.

(** ** What is asked of [connected_components] *)

(** Every vertex of the graph is in some component. *)
Definition components_cover (nx : networkx) (G : Graph) : Prop :=
  ∀ v, v ∈ vertices G → ∃ ci, ci ∈ connected_components nx G ∧ v ∈ ci.

(** The components partition the vertices: every vertex is in exactly one
    component, once. *)
Definition components_partition (nx : networkx) (G : Graph) : Prop :=
  mjoin (connected_components nx G) ≡ₚ vertices G.

(** ** Membership *)

(** [node] belongs to the hyperedge of identifier [e]. *)
Definition member (H : Hypergraph) (node e : ident) : Prop :=
  ∃ ed, ed ∈ H_edges H ∧ uid ed = e ∧ node ∈ elements ed.


(** ** A call of [draw] with a dict of the caller *)

(** The caller's dict [{"linewidths": 2}], held at reference 1. *)
Definition caller_store : gmap loc (gmap string kwvalue) :=
  {[ 1%positive := {[ "linewidths" := KPlain "2" ]} ]}.

Definition caller_args : draw_args :=
  mkDrawArgs true true false false true (Some 1%positive) 1 false None
    NcNone None (1 # 10).

(** ** Row labels from column labels *)

(** The label the row pass writes where the column pass writes [a]: the
    same text, 0.15 lower, centred, above for a node label ([ha="right"]
    in the column pass) and below for a hyperedge label. *)
Definition row_label (a : artist) : artist :=
  match a with
  | Annotate text xy ha va =>
      Annotate text (xy.1, (xy.2 - (15 # 100))%Q) "center"
        (if decide (ha = "right") then "top" else "bottom")
  | _ => a
  end.

(** ** Annotations *)

Definition is_annotation (a : artist) : Prop :=
  match a with Annotate _ _ _ _ => True | _ => False end.

(** ** Keywords that the module passes itself *)

(** The keywords that [draw] gives to [draw_hyper_edges] and that
    [draw_hyper_edges] gives to [LineCollection] by name: a caller's
    [edge_kwargs] that holds one of them makes the call raise. *)
Definition passed_keywords : list string :=
  ["H"; "pos"; "ax"; "edgecolor"; "nodecolor"; "nodesize"; "color"; "zorder"].

(** * Properties *)

(** ** The node table *)

Lemma add_node_keys v tag ns u :
  u ∈ (add_node v tag ns).*1 ↔ u = v ∨ u ∈ ns.*1.
Proof.
  induction ns as [|[w t] ns IH]; simpl.
  - rewrite list_elem_of_singleton. set_solver.
  - destruct (decide (w = v)) as [->|Hne]; simpl; set_solver.
Qed.

Lemma add_node_NoDup v tag ns :
  NoDup ns.*1 → NoDup (add_node v tag ns).*1.
Proof.
  induction ns as [|[w t] ns IH]; simpl; intros Hnd.
  - apply NoDup_singleton.
  - apply NoDup_cons in Hnd as [Hw Hnd].
    destruct (decide (w = v)) as [->|Hne]; simpl.
    + by apply NoDup_cons.
    + apply NoDup_cons. split; [|by apply IH].
      rewrite add_node_keys. naive_solver.
Qed.

Lemma add_node_attr v tag ns u :
  attr_of u (add_node v tag ns) =
  if decide (u = v) then Some tag else attr_of u ns.
Proof.
  induction ns as [|[w t] ns IH]; simpl.
  - destruct (decide (v = u)), (decide (u = v)); congruence.
  - destruct (decide (w = v)) as [->|Hne]; simpl;
      repeat case_decide; congruence.
Qed.

Lemma add_nodes_from_keys vs tag ns u :
  u ∈ (add_nodes_from vs tag ns).*1 ↔ u ∈ vs ∨ u ∈ ns.*1.
Proof.
  unfold add_nodes_from. revert ns.
  induction vs as [|v vs IH]; intros ns; simpl.
  - set_solver.
  - rewrite IH, add_node_keys. set_solver.
Qed.

Lemma add_nodes_from_NoDup vs tag ns :
  NoDup ns.*1 → NoDup (add_nodes_from vs tag ns).*1.
Proof.
  unfold add_nodes_from. revert ns.
  induction vs as [|v vs IH]; intros ns Hnd; simpl; [done|].
  by apply IH, add_node_NoDup.
Qed.

Lemma add_nodes_from_attr vs tag ns u :
  attr_of u (add_nodes_from vs tag ns) =
  if decide (u ∈ vs) then Some tag else attr_of u ns.
Proof.
  unfold add_nodes_from. revert ns.
  induction vs as [|v vs IH]; intros ns; simpl.
  - destruct (decide (u ∈ [])) as [Hin|]; [by apply elem_of_nil in Hin|done].
  - rewrite IH, add_node_attr.
    destruct (decide (u ∈ vs)) as [Hin|Hnin].
    + rewrite decide_True; [done|set_solver].
    + destruct (decide (u = v)) as [->|Hne].
      * rewrite decide_True; [done|set_solver].
      * rewrite decide_False; [done|set_solver].
Qed.

Lemma attr_of_is_Some v ns : is_Some (attr_of v ns) ↔ v ∈ ns.*1.
Proof.
  induction ns as [|[w t] ns IH]; simpl.
  - split; [by intros [? ?]|by intros ?%elem_of_nil].
  - destruct (decide (w = v)) as [->|Hne].
    + split; [set_solver|eauto].
    + rewrite IH. set_solver.
Qed.

Lemma bipartite_vertices H v :
  v ∈ vertices (bipartite H) ↔ v ∈ H_nodes H ∨ v ∈ edge_uids H.
Proof.
  unfold vertices, bipartite; simpl.
  rewrite !add_nodes_from_keys. set_solver.
Qed.

Lemma bipartite_NoDup H : NoDup (vertices (bipartite H)).
Proof.
  unfold vertices, bipartite; simpl.
  do 2 apply add_nodes_from_NoDup. constructor.
Qed.

Lemma bipartite_attr H v :
  node_attr (bipartite H) v =
  if decide (v ∈ H_nodes H) then Some 0
  else if decide (v ∈ edge_uids H) then Some 1 else None.
Proof.
  unfold node_attr, bipartite; simpl.
  by rewrite !add_nodes_from_attr.
Qed.

(** ** Subgraphs and their two sides *)

Lemma side_subgraph G ci j :
  side (subgraph G ci) j = filter (λ v, node_attr G v = Some j) ci.
Proof.
  unfold side, subgraph; simpl.
  induction ci as [|v ci IH]; [done|].
  rewrite filter_cons. cbn [omap list_omap].
  destruct (node_attr G v) as [t|] eqn:Hv; cbn [fmap option_fmap option_map].
  - rewrite filter_cons. cbn [snd].
    destruct (decide (t = j)) as [->|Hne].
    + rewrite decide_True by done. cbn [fmap list_fmap fst]. f_equal. exact IH.
    + rewrite decide_False by congruence. exact IH.
  - rewrite decide_False by done. exact IH.
Qed.

Lemma vertices_subgraph G ci :
  vertices (subgraph G ci) = filter (λ v, v ∈ vertices G) ci.
Proof.
  unfold vertices, subgraph; simpl.
  induction ci as [|v ci IH]; [done|].
  rewrite filter_cons. cbn [omap list_omap].
  pose proof (attr_of_is_Some v (G_nodes G)) as Hs.
  unfold node_attr in *. destruct (attr_of v (G_nodes G)) as [t|];
    cbn [fmap option_fmap option_map].
  - rewrite decide_True by (apply Hs; eauto).
    cbn [fmap list_fmap fst]. f_equal. exact IH.
  - rewrite decide_False; [exact IH|]. intros Hin. apply Hs in Hin.
    by destruct Hin.
Qed.

Lemma side_bipartite_nodes H ci :
  side (subgraph (bipartite H) ci) 0 = filter (λ v, v ∈ H_nodes H) ci.
Proof.
  rewrite side_subgraph. apply list_filter_iff. intros v.
  rewrite bipartite_attr. repeat case_decide; naive_solver.
Qed.

Lemma side_bipartite_edges H ci :
  side (subgraph (bipartite H) ci) 1 =
  filter (λ v, (v ∉ H_nodes H) ∧ v ∈ edge_uids H) ci.
Proof.
  rewrite side_subgraph. apply list_filter_iff. intros v.
  rewrite bipartite_attr. repeat case_decide; naive_solver.
Qed.

(** ** Sorting *)

Lemma insert_keyed_perm k v l : insert_keyed k v l ≡ₚ (k, v) :: l.
Proof.
  induction l as [|[k' v'] l IH]; simpl; [done|].
  destruct (k <=? k')%Z; [done|].
  rewrite IH. apply Permutation_swap.
Qed.

Lemma sort_keyed_perm l : sort_keyed l ≡ₚ l.
Proof.
  induction l as [|[k v] l IH]; simpl; [done|].
  rewrite insert_keyed_perm. by constructor.
Qed.

Lemma insert_keyed_sorted k v l :
  StronglySorted (λ p q : Z * ident, (p.1 ≤ q.1)%Z) l →
  StronglySorted (λ p q : Z * ident, (p.1 ≤ q.1)%Z) (insert_keyed k v l).
Proof.
  induction l as [|[k' v'] l IH]; simpl; intros Hs.
  - repeat constructor.
  - apply StronglySorted_inv in Hs as [Hs Hall].
    destruct (k <=? k')%Z eqn:Hk.
    + apply Z.leb_le in Hk. constructor; [by constructor|].
      constructor; [done|].
      eapply Forall_impl; [exact Hall|]. simpl. intros; lia.
    + apply Z.leb_gt in Hk. constructor; [by apply IH|].
      rewrite insert_keyed_perm. constructor; [simpl; lia|done].
Qed.

Lemma sort_keyed_sorted l :
  StronglySorted (λ p q : Z * ident, (p.1 ≤ q.1)%Z) (sort_keyed l).
Proof.
  induction l as [|[k v] l IH]; simpl; [constructor|].
  by apply insert_keyed_sorted.
Qed.

Lemma keyed_fmap_snd (key : ident → option Z) l keyed :
  mapM (λ v, (λ k, (k, v)) <$> key v) l = Some keyed →
  keyed.*2 = l ∧ Forall (λ p, key p.2 = Some p.1) keyed.
Proof.
  rewrite mapM_Some. induction 1 as [|v p l keyed Hp _ [IH1 IH2]].
  - by split; [|constructor].
  - destruct (key v) as [k|] eqn:Hk; simplify_eq/=.
    split; [by f_equal|by constructor].
Qed.

Lemma py_sorted_perm key l l' : py_sorted key l = Some l' → l' ≡ₚ l.
Proof.
  unfold py_sorted. destruct l as [|u [|v l]]; try by intros [= <-].
  intros Hs. apply bind_Some in Hs as (keyed & Hk & [= <-]).
  apply keyed_fmap_snd in Hk as [<- _].
  by rewrite sort_keyed_perm.
Qed.

Lemma py_sorted_length key l l' :
  py_sorted key l = Some l' → length l' = length l.
Proof. by intros ->%py_sorted_perm. Qed.

Lemma py_sorted_sorted key l l' :
  py_sorted key l = Some l' → sorted_by key l'.
Proof.
  unfold py_sorted, sorted_by. destruct l as [|u [|v l]].
  - intros [= <-]. constructor.
  - intros [= <-]. repeat constructor.
  - intros Hs. apply bind_Some in Hs as (keyed & Hk & [= <-]).
    apply keyed_fmap_snd in Hk as [_ Hall].
    assert (Forall (λ p, key p.2 = Some p.1) (sort_keyed keyed)) as Hall'
      by by rewrite sort_keyed_perm.
    pose proof (sort_keyed_sorted keyed) as Hsorted.
    induction Hsorted as [|p ps Hps IH Hle]; [constructor|].
    apply Forall_cons in Hall' as [Hp Hall']. simpl.
    constructor; [by apply IH|].
    rewrite Forall_fmap. rewrite Forall_forall in Hle, Hall'.
    apply Forall_forall. intros q Hq ku kv Hu Hv. simpl in *.
    specialize (Hle q Hq). specialize (Hall' q Hq). simplify_eq. done.
Qed.

Lemma py_sorted_ranked key l :
  (∀ v, v ∈ l → is_Some (key v)) → is_Some (py_sorted key l).
Proof.
  intros Hall. unfold py_sorted. destruct l as [|u [|v l]]; [eauto..|].
  destruct (mapM (λ v, (λ k, (k, v)) <$> key v) (u :: v :: l))
    as [keyed|] eqn:Hk; [simpl; eauto|].
  exfalso. apply mapM_None in Hk. apply Exists_exists in Hk as (w & Hw & Hn).
  destruct (Hall w Hw) as [k Hkw]. rewrite Hkw in Hn. done.
Qed.

Lemma py_sorted_short key l :
  length l ≤ 1 → py_sorted key l = Some l.
Proof. destruct l as [|u [|v l]]; simpl; [done..|lia]. Qed.

Lemma py_sorted_unranked key l v :
  2 ≤ length l → v ∈ l → key v = None → py_sorted key l = None.
Proof.
  intros Hlen Hv Hnone. unfold py_sorted.
  destruct l as [|u [|w l]]; simpl in Hlen; [lia..|].
  apply bind_None. left. apply mapM_None, Exists_exists.
  exists v. split; [done|]. by rewrite Hnone.
Qed.

(** ** Stacking one column *)

Section Stack.

Variables (offset : Q) (n : nat) (x : Q) (height : nat) (flip : bool).

Lemma stack_from_notin i vs pos v :
  v ∉ vs → stack_from offset n x height flip i vs pos !! v = pos !! v.
Proof.
  revert i pos. induction vs as [|u vs IH]; intros i pos Hnin; simpl; [done|].
  apply not_elem_of_cons in Hnin as [Hne Hnin].
  rewrite IH by done. by rewrite lookup_insert_ne.
Qed.

Lemma stack_from_lookup i vs pos k v :
  NoDup vs → vs !! k = Some v →
  stack_from offset n x height flip i vs pos !! v =
  Some (stack_point offset n x height flip (i + k)).
Proof.
  revert i pos k. induction vs as [|u vs IH]; intros i pos k Hnd Hk; [done|].
  apply NoDup_cons in Hnd as [Hu Hnd]. destruct k as [|k]; simpl in *.
  - simplify_eq. rewrite stack_from_notin by done.
    rewrite lookup_insert_eq. by rewrite Nat.add_0_r.
  - rewrite (IH (S i) _ k) by done. do 2 f_equal. lia.
Qed.

Lemma stack_from_dom i vs pos :
  dom (stack_from offset n x height flip i vs pos) = dom pos ∪ list_to_set vs.
Proof.
  revert i pos. induction vs as [|u vs IH]; intros i pos; simpl.
  - set_solver.
  - rewrite IH, dom_insert_L. set_solver.
Qed.

End Stack.

Lemma stack_point_transpose offset n x height i :
  stack_point offset n x height true i =
  transpose (stack_point offset n x height false i).
Proof. done. Qed.

Lemma stack_from_transpose offset n x height i vs (pos : gmap ident point) :
  stack_from offset n x height true i vs (transpose <$> pos) =
  transpose <$> stack_from offset n x height false i vs pos.
Proof.
  revert i pos. induction vs as [|u vs IH]; intros i pos; simpl; [done|].
  rewrite <- IH. f_equal. by rewrite fmap_insert.
Qed.

(** ** The loop and its trace *)

Section Loop.

Variables (nx : networkx) (G : Graph) (spacing width : Q) (flip : bool).
Variable nodeorder : option (gmap ident Z).

Lemma layout_component_place st ci :
  layout_component nx G spacing width flip nodeorder st ci =
  '(vs, es) ← component_columns nx nodeorder G ci;
  let p := mkPlacement (st_offset st) vs es in
  Some (mkState (st_offset st + (inject_Z (Z.of_nat (pl_height p)) + spacing))
          (place width flip (st_pos st) p)).
Proof. unfold layout_component. by destruct (component_columns _ _ _ _) as [[??]|]. Qed.

(** The position map built by the loop is the trace replayed with
    [place]. *)
Lemma layout_loop_trace cis st :
  st_pos <$> layout_loop nx G spacing width flip nodeorder cis st =
  foldl (place width flip) (st_pos st)
    <$> layout_trace nx G spacing nodeorder cis (st_offset st).
Proof.
  revert st. induction cis as [|ci cis IH]; intros st; simpl; [done|].
  rewrite layout_component_place.
  destruct (component_columns nx nodeorder G ci) as [[vs es]|]; simpl; [|done].
  rewrite IH; simpl.
  by destruct (layout_trace nx G spacing nodeorder cis _).
Qed.

Lemma layout_trace_length cis o tr :
  layout_trace nx G spacing nodeorder cis o = Some tr →
  length tr = length cis.
Proof.
  revert o tr. induction cis as [|ci cis IH]; intros o tr; simpl.
  - by intros [= <-].
  - destruct (component_columns nx nodeorder G ci) as [[vs es]|]; simpl; [|done].
    destruct (layout_trace nx G spacing nodeorder cis _) as [tr'|] eqn:Htr;
      simpl; [|done].
    intros [= <-]. simpl. f_equal. eauto.
Qed.

(** The columns of the [k]-th placement are those of the [k]-th
    component. *)
Lemma layout_trace_columns cis o tr k ci p :
  layout_trace nx G spacing nodeorder cis o = Some tr →
  cis !! k = Some ci → tr !! k = Some p →
  component_columns nx nodeorder G ci = Some (pl_vertices p, pl_edges p).
Proof.
  revert o tr k. induction cis as [|c cis IH]; intros o tr k; simpl; [done|].
  destruct (component_columns nx nodeorder G c) as [[vs es]|] eqn:Hc;
    simpl; [|done].
  destruct (layout_trace nx G spacing nodeorder cis _) as [tr'|] eqn:Htr;
    simpl; [|done].
  intros [= <-]. destruct k as [|k]; simpl.
  - by intros [= <-] [= <-].
  - eauto.
Qed.

Lemma layout_trace_head cis o tr p :
  layout_trace nx G spacing nodeorder cis o = Some tr →
  tr !! 0 = Some p → pl_offset p = o.
Proof.
  destruct cis as [|c cis]; simpl; [by intros [= <-]|].
  destruct (component_columns nx nodeorder G c) as [[vs es]|]; simpl; [|done].
  destruct (layout_trace nx G spacing nodeorder cis _) as [tr'|]; simpl; [|done].
  by intros [= <-] [= <-].
Qed.

(** [offset += height + spacing] *)
Lemma layout_trace_step cis o tr k p q :
  layout_trace nx G spacing nodeorder cis o = Some tr →
  tr !! k = Some p → tr !! S k = Some q →
  pl_offset q =
  (pl_offset p + (inject_Z (Z.of_nat (pl_height p)) + spacing))%Q.
Proof.
  revert o tr k. induction cis as [|c cis IH]; intros o tr k; simpl;
    [by intros [= <-]|].
  destruct (component_columns nx nodeorder G c) as [[vs es]|]; simpl; [|done].
  destruct (layout_trace nx G spacing nodeorder cis _) as [tr'|] eqn:Htr;
    simpl; [|done].
  intros [= <-]. destruct k as [|k]; simpl.
  - intros [= <-] Hq. simpl. by apply (layout_trace_head cis _ tr').
  - eauto.
Qed.

End Loop.

(** ** Replaying placements *)

Section Replay.

Variables (width : Q) (flip : bool).

Lemma place_dom pos p :
  dom (place width flip pos p) = dom pos ∪ list_to_set (pl_items p).
Proof.
  unfold place, stack, pl_items. rewrite !stack_from_dom, list_to_set_app_L.
  set_solver.
Qed.

Lemma place_notin pos p v :
  v ∉ pl_items p → place width flip pos p !! v = pos !! v.
Proof.
  unfold place, stack, pl_items. intros Hnin.
  apply not_elem_of_app in Hnin as [Hv He].
  by rewrite !stack_from_notin.
Qed.

Lemma place_vertex pos p i v :
  NoDup (pl_items p) → pl_vertices p !! i = Some v →
  place width flip pos p !! v =
  Some (stack_point (pl_offset p) (length (pl_vertices p)) 0 (pl_height p)
          flip i).
Proof.
  unfold place, stack, pl_items. intros Hnd Hi.
  apply NoDup_app in Hnd as (Hv & Hdisj & He).
  rewrite stack_from_notin by (apply Hdisj; by eapply list_elem_of_lookup_2).
  by rewrite (stack_from_lookup _ _ _ _ _ 0 _ _ i v).
Qed.

Lemma place_edge pos p i v :
  NoDup (pl_items p) → pl_edges p !! i = Some v →
  place width flip pos p !! v =
  Some (stack_point (pl_offset p) (length (pl_edges p)) width (pl_height p)
          flip i).
Proof.
  unfold place, stack, pl_items. intros Hnd Hi.
  apply NoDup_app in Hnd as (Hv & Hdisj & He).
  by rewrite (stack_from_lookup _ _ _ _ _ 0 _ _ i v).
Qed.

Lemma replay_dom tr pos :
  dom (foldl (place width flip) pos tr) =
  dom pos ∪ list_to_set (tr ≫= pl_items).
Proof.
  revert pos. induction tr as [|p tr IH]; intros pos; simpl.
  - set_solver.
  - rewrite IH, place_dom, list_to_set_app_L. set_solver.
Qed.

Lemma replay_notin tr pos v :
  v ∉ tr ≫= pl_items → foldl (place width flip) pos tr !! v = pos !! v.
Proof.
  revert pos. induction tr as [|p tr IH]; intros pos Hnin; simpl; [done|].
  simpl in Hnin. apply not_elem_of_app in Hnin as [Hp Htr].
  rewrite IH by done. by apply place_notin.
Qed.

(** When no vertex is placed twice, the final position of a vertex is the
    one given by its own component. *)
Lemma replay_lookup tr pos k p v :
  NoDup (tr ≫= pl_items) → tr !! k = Some p → v ∈ pl_items p →
  foldl (place width flip) pos tr !! v = place width flip ∅ p !! v.
Proof.
  revert pos k. induction tr as [|q tr IH]; intros pos k Hnd Hk Hv; [done|].
  simpl in Hnd. apply NoDup_app in Hnd as (Hq & Hdisj & Htr).
  destruct k as [|k]; simpl in *.
  - simplify_eq. rewrite replay_notin by (by apply Hdisj).
    unfold pl_items in Hv. apply elem_of_app in Hv as [Hv|Hv];
      apply list_elem_of_lookup in Hv as [i Hi].
    + by rewrite !(place_vertex _ _ i).
    + by rewrite !(place_edge _ _ i).
  - by apply (IH _ k).
Qed.

End Replay.

(** ** Columns and components *)

Lemma filter_disjoint_submseteq {A} (P Q : A → Prop)
  `{!∀ x, Decision (P x)} `{!∀ x, Decision (Q x)} (l : list A) :
  (∀ x, P x → Q x → False) → filter P l ++ filter Q l ⊆+ l.
Proof.
  intros Hdisj. induction l as [|x l IH]; [done|].
  rewrite !filter_cons. destruct (decide (P x)) as [HP|HP].
  - rewrite decide_False by eauto. simpl. by constructor.
  - destruct (decide (Q x)) as [HQ|HQ].
    + rewrite <- Permutation_middle. by constructor.
    + by apply submseteq_cons.
Qed.

Lemma filter_ext_elem {A} (P Q : A → Prop)
  `{!∀ x, Decision (P x)} `{!∀ x, Decision (Q x)} (l : list A) :
  (∀ x, x ∈ l → P x ↔ Q x) → filter P l = filter Q l.
Proof.
  induction l as [|x l IH]; intros Hext; [done|].
  rewrite !filter_cons.
  assert (filter P l = filter Q l) as ->
    by (apply IH; intros y Hy; apply Hext; by right).
  destruct (decide (P x)) as [HP|HP], (decide (Q x)) as [HQ|HQ];
    try done; exfalso; apply (Hext x) in HP || apply (Hext x) in HQ;
    try done; by left.
Qed.

Section Columns.

Variables (nx : networkx) (G : Graph).
Variable nodeorder : option (gmap ident Z).

Lemma component_columns_perm ci vs es :
  component_columns nx nodeorder G ci = Some (vs, es) →
  vs ≡ₚ side (subgraph G ci) 0 ∧ es ≡ₚ side (subgraph G ci) 1.
Proof.
  unfold component_columns. intros Hc.
  apply bind_Some in Hc as (key & _ & Hc).
  apply bind_Some in Hc as (vs' & Hvs & Hc).
  apply bind_Some in Hc as (es' & Hes & [= <- <-]).
  split; by eapply py_sorted_perm.
Qed.

Lemma component_columns_sub ci vs es :
  component_columns nx nodeorder G ci = Some (vs, es) → vs ++ es ⊆+ ci.
Proof.
  intros [-> ->]%component_columns_perm. rewrite !side_subgraph.
  apply filter_disjoint_submseteq. congruence.
Qed.

Lemma component_columns_elem ci vs es v :
  component_columns nx nodeorder G ci = Some (vs, es) →
  v ∈ vs ++ es ↔ v ∈ ci ∧ (node_attr G v = Some 0 ∨ node_attr G v = Some 1).
Proof.
  intros [-> ->]%component_columns_perm. rewrite !side_subgraph.
  rewrite elem_of_app, !list_elem_of_filter. naive_solver.
Qed.

Lemma layout_trace_items spacing cis o tr :
  layout_trace nx G spacing nodeorder cis o = Some tr →
  tr ≫= pl_items ⊆+ mjoin cis.
Proof.
  revert o tr. induction cis as [|ci cis IH]; intros o tr; simpl.
  - by intros [= <-].
  - destruct (component_columns nx nodeorder G ci) as [[vs es]|] eqn:Hc;
      simpl; [|done].
    destruct (layout_trace nx G spacing nodeorder cis _) as [tr'|] eqn:Htr;
      simpl; [|done].
    intros [= <-]. simpl. apply submseteq_app; [|by eapply IH].
    by apply component_columns_sub.
Qed.

End Columns.

(** ** What is asked of [connected_components] *)

Lemma components_partition_cover nx G :
  components_partition nx G → components_cover nx G.
Proof.
  intros Hp v Hv. rewrite <- Hp in Hv.
  apply list_elem_of_join in Hv as (ci & ? & ?). eauto.
Qed.

Lemma components_cover_check nx G :
  Forall (λ v, Exists (λ ci, v ∈ ci) (connected_components nx G))
    (vertices G) →
  components_cover nx G.
Proof.
  rewrite Forall_forall. intros Hall v Hv.
  apply Hall, Exists_exists in Hv. naive_solver.
Qed.

Lemma components_partition_check nx G :
  NoDup (mjoin (connected_components nx G)) →
  Forall (λ v, v ∈ vertices G) (mjoin (connected_components nx G)) →
  Forall (λ v, v ∈ mjoin (connected_components nx G)) (vertices G) →
  NoDup (vertices G) →
  components_partition nx G.
Proof.
  rewrite !Forall_forall. intros Hnd H1 H2 HG.
  apply NoDup_Permutation; [done..|]. naive_solver.
Qed.

(** ** The keys of the position map *)

Lemma layout_two_column_trace nx H spacing width flip nodeorder :
  layout_two_column nx H spacing width flip nodeorder =
  foldl (place width flip) ∅
    <$> layout_trace nx (bipartite H) spacing nodeorder
          (connected_components nx (bipartite H)) 0.
Proof. unfold layout_two_column. by rewrite layout_loop_trace. Qed.

Lemma layout_trace_elem nx G spacing nodeorder cis o tr v :
  layout_trace nx G spacing nodeorder cis o = Some tr →
  v ∈ tr ≫= pl_items ↔
  (∃ ci, ci ∈ cis ∧ v ∈ ci)
  ∧ (node_attr G v = Some 0 ∨ node_attr G v = Some 1).
Proof.
  revert o tr. induction cis as [|ci cis IH]; intros o tr; simpl.
  - intros [= <-]. simpl. split; [by intros ?%elem_of_nil|].
    intros [(ci & []%elem_of_nil & _) _].
  - destruct (component_columns nx nodeorder G ci) as [[vs es]|] eqn:Hc;
      simpl; [|done].
    destruct (layout_trace nx G spacing nodeorder cis _) as [tr'|] eqn:Htr;
      simpl; [|done].
    intros [= <-]. simpl. rewrite elem_of_app. unfold pl_items at 1. simpl.
    rewrite (component_columns_elem _ _ _ _ _ _ _ Hc), (IH _ _ Htr).
    split.
    + intros [[? ?]|[(c & ? & ?) ?]]; (split; [|done]).
      * exists ci. split; [left|done].
      * exists c. split; [by right|done].
    + intros [(c & Hin & ?) ?]. apply elem_of_cons in Hin as [->|Hin].
      * by left.
      * right. split; [by exists c|done].
Qed.

Lemma bipartite_attr_vertex H v :
  v ∈ vertices (bipartite H) ↔
  node_attr (bipartite H) v = Some 0 ∨ node_attr (bipartite H) v = Some 1.
Proof.
  rewrite bipartite_vertices, bipartite_attr.
  repeat case_decide; naive_solver.
Qed.

(** C1. Whenever [layout_two_column] returns a position map, its keys are
    the node identifiers and the hyperedge identifiers of [H] and nothing
    else; a map holds one entry per key. *)
Theorem layout_keys nx H spacing width flip nodeorder pos :
  components_cover nx (bipartite H) →
  layout_two_column nx H spacing width flip nodeorder = Some pos →
  ∀ v, is_Some (pos !! v) ↔ v ∈ H_nodes H ∨ v ∈ edge_uids H.
Proof.
  intros Hcover Hlay v. rewrite layout_two_column_trace in Hlay.
  apply fmap_Some in Hlay as (tr & Htr & ->).
  rewrite <- elem_of_dom, replay_dom, dom_empty_L, elem_of_union,
    elem_of_list_to_set, (layout_trace_elem _ _ _ _ _ _ _ _ Htr),
    <- bipartite_attr_vertex, <- bipartite_vertices.
  split.
  - intros [[]%elem_of_empty|[_ ?]]. done.
  - intros Hv. right. split; [by apply Hcover|done].
Qed.

(** ** Orientation *)

Lemma place_transpose width (pos : gmap ident point) p :
  place width true (transpose <$> pos) p =
  transpose <$> place width false pos p.
Proof. unfold place, stack. by rewrite !stack_from_transpose. Qed.

Lemma replay_transpose width tr (pos : gmap ident point) :
  foldl (place width true) (transpose <$> pos) tr =
  transpose <$> foldl (place width false) pos tr.
Proof.
  revert pos. induction tr as [|p tr IH]; intros pos; simpl; [done|].
  by rewrite place_transpose, IH.
Qed.

(** C5. With [flip_orientation=True] the layout returns the transpose of
    the map it returns with [flip_orientation=False]: a vertex sent to
    (a, b) is sent to (b, a); and it fails exactly when the other does. *)
Theorem flip_orientation_transposes nx H spacing width nodeorder :
  layout_two_column nx H spacing width true nodeorder =
  (λ pos : gmap ident point, transpose <$> pos)
    <$> layout_two_column nx H spacing width false nodeorder.
Proof.
  rewrite !layout_two_column_trace.
  destruct (layout_trace nx (bipartite H) spacing nodeorder _ 0) as [tr|];
    simpl; [|done].
  f_equal. by rewrite <- replay_transpose, fmap_empty.
Qed.

(** ** Coordinates *)

Lemma stacking_coord_stack_point offset n x height flip i :
  stacking_coord flip (stack_point offset n x height flip i) =
  (inject_Z (Z.of_nat i) + offset
   + inject_Z (Z.of_nat height - Z.of_nat n) / 2)%Q.
Proof. by destruct flip. Qed.

Lemma column_coord_stack_point offset n x height flip i :
  column_coord flip (stack_point offset n x height flip i) = x.
Proof. by destruct flip. Qed.


(** ** Position of every vertex, component by component *)

Section Positions.

Variables (nx : networkx) (H : Hypergraph) (spacing width : Q) (flip : bool).
Variable nodeorder : option (gmap ident Z).

Local Abbreviation G := (bipartite H).
Local Abbreviation comps := (connected_components nx (bipartite H)).

Lemma partition_trace_NoDup o tr :
  components_partition nx G →
  layout_trace nx G spacing nodeorder comps o = Some tr →
  NoDup (tr ≫= pl_items).
Proof.
  intros Hpart Htr. apply layout_trace_items in Htr.
  apply submseteq_Permutation in Htr as [rest Htr].
  assert (NoDup ((tr ≫= pl_items) ++ rest)) as Hnd.
  { unfold components_partition in Hpart.
    rewrite <- Htr, Hpart. apply bipartite_NoDup. }
  by apply NoDup_app in Hnd as (? & _ & _).
Qed.

Lemma layout_positions pos :
  components_partition nx G →
  layout_two_column nx H spacing width flip nodeorder = Some pos →
  ∃ tr,
    layout_trace nx G spacing nodeorder comps 0 = Some tr
    ∧ ∀ k p, tr !! k = Some p →
        (∀ i v, pl_vertices p !! i = Some v →
           pos !! v =
           Some (stack_point (pl_offset p) (length (pl_vertices p)) 0
                   (pl_height p) flip i))
        ∧ (∀ i v, pl_edges p !! i = Some v →
             pos !! v =
             Some (stack_point (pl_offset p) (length (pl_edges p)) width
                     (pl_height p) flip i)).
Proof.
  intros Hpart Hlay. rewrite layout_two_column_trace in Hlay.
  apply fmap_Some in Hlay as (tr & Htr & ->). exists tr. split; [done|].
  pose proof (partition_trace_NoDup _ _ Hpart Htr) as Hnd.
  intros k p Hk.
  assert (NoDup (pl_items p)) as Hp.
  { apply list_elem_of_lookup_2 in Hk.
    apply list_elem_of_split in Hk as (t1 & t2 & ->).
    rewrite bind_app, bind_cons in Hnd.
    apply NoDup_app in Hnd as (_ & _ & Hnd).
    by apply NoDup_app in Hnd as (? & _ & _). }
  split; intros i v Hi.
  - rewrite (replay_lookup _ _ _ _ k p) by
      (try done; apply elem_of_app; left; by eapply list_elem_of_lookup_2).
    by apply place_vertex.
  - rewrite (replay_lookup _ _ _ _ k p) by
      (try done; apply elem_of_app; right; by eapply list_elem_of_lookup_2).
    by apply place_edge.
Qed.

End Positions.

Lemma component_columns_sorted nx nodeorder G ci vs es :
  component_columns nx nodeorder G ci = Some (vs, es) →
  ∃ key, component_key nx nodeorder (subgraph G ci) = Some key
         ∧ sorted_by key vs ∧ sorted_by key es.
Proof.
  unfold component_columns. intros Hc.
  apply bind_Some in Hc as (key & Hkey & Hc).
  apply bind_Some in Hc as (vs' & Hvs & Hc).
  apply bind_Some in Hc as (es' & Hes & [= <- <-]).
  exists key. eauto using py_sorted_sorted.
Qed.

(** ** The stacking formula *)

Lemma partition_component_vertices nx G ci v :
  components_partition nx G → ci ∈ connected_components nx G → v ∈ ci →
  v ∈ vertices G.
Proof.
  intros Hpart Hci Hv. rewrite <- Hpart. apply list_elem_of_join. eauto.
Qed.

(** C2. In a layout that returns [pos], the [k]-th component is laid out
    from its own offset: its node subset, sorted, sits at column
    coordinate 0 and its hyperedge subset, sorted, at column coordinate
    [width]; the item of index [i] of a subset of [n] items has stacking
    coordinate [i + offset + (height - n) / 2] with
    [height = max (node count) (hyperedge count)]; the first offset is 0
    and each next offset is the previous one plus [height + spacing]. *)
Theorem stacking_formula nx H spacing width flip nodeorder pos :
  components_partition nx (bipartite H) →
  layout_two_column nx H spacing width flip nodeorder = Some pos →
  ∃ tr,
    layout_trace nx (bipartite H) spacing nodeorder
      (connected_components nx (bipartite H)) 0 = Some tr
    ∧ length tr = length (connected_components nx (bipartite H))
    ∧ (∀ p, tr !! 0 = Some p → pl_offset p = 0%Q)
    ∧ (∀ k p q, tr !! k = Some p → tr !! S k = Some q →
         pl_offset q =
         (pl_offset p
          + (inject_Z (Z.of_nat (Nat.max (length (pl_vertices p))
                                   (length (pl_edges p))))
             + spacing))%Q)
    ∧ ∀ k ci p,
        connected_components nx (bipartite H) !! k = Some ci →
        tr !! k = Some p →
        let height :=
          Nat.max (length (pl_vertices p)) (length (pl_edges p)) in
        pl_vertices p ≡ₚ filter (λ v, v ∈ H_nodes H) ci
        ∧ pl_edges p ≡ₚ filter (λ v, v ∉ H_nodes H) ci
        ∧ (∃ key,
             component_key nx nodeorder (subgraph (bipartite H) ci) = Some key
             ∧ sorted_by key (pl_vertices p) ∧ sorted_by key (pl_edges p))
        ∧ (∀ i v, pl_vertices p !! i = Some v →
             ∃ pt, pos !! v = Some pt
                   ∧ column_coord flip pt = 0%Q
                   ∧ stacking_coord flip pt =
                     (inject_Z (Z.of_nat i) + pl_offset p
                      + inject_Z (Z.of_nat height
                                  - Z.of_nat (length (pl_vertices p))) / 2)%Q)
        ∧ (∀ i v, pl_edges p !! i = Some v →
             ∃ pt, pos !! v = Some pt
                   ∧ column_coord flip pt = width
                   ∧ stacking_coord flip pt =
                     (inject_Z (Z.of_nat i) + pl_offset p
                      + inject_Z (Z.of_nat height
                                  - Z.of_nat (length (pl_edges p))) / 2)%Q).
Proof.
  intros Hpart Hlay.
  destruct (layout_positions _ _ _ _ _ _ _ Hpart Hlay) as (tr & Htr & Hpos).
  exists tr. split; [done|].
  split; [by eapply layout_trace_length|].
  split; [intros p Hp; by eapply layout_trace_head|].
  split; [intros k p q Hp Hq; by eapply layout_trace_step|].
  intros k ci p Hci Hp height.
  pose proof (layout_trace_columns _ _ _ _ _ _ _ _ _ _ Htr Hci Hp) as Hcols.
  destruct (component_columns_perm _ _ _ _ _ _ Hcols) as [Hvs Hes].
  rewrite side_bipartite_nodes in Hvs. rewrite side_bipartite_edges in Hes.
  destruct (Hpos k p Hp) as [Hv He].
  split; [done|]. split.
  { rewrite Hes. erewrite filter_ext_elem; [done|].
    intros v Hv'. split; [tauto|]. intros Hn. split; [done|].
    assert (v ∈ vertices (bipartite H)) as Hin.
    { eapply partition_component_vertices; [done| |done].
      by eapply list_elem_of_lookup_2. }
    apply bipartite_vertices in Hin. tauto. }
  split; [by eapply component_columns_sorted|].
  split; intros i v Hi.
  - eexists. split; [by apply Hv|].
    by rewrite column_coord_stack_point, stacking_coord_stack_point.
  - eexists. split; [by apply He|].
    by rewrite column_coord_stack_point, stacking_coord_stack_point.
Qed.

(** ** Components do not overlap *)


Section Overlap.

Variables (nx : networkx) (H : Hypergraph) (spacing width : Q) (flip : bool).
Variable nodeorder : option (gmap ident Z).
Variable pos : gmap ident point.
Variable tr : list placement.

Hypothesis Hpart : components_partition nx (bipartite H).
Hypothesis Hlay :
  layout_two_column nx H spacing width flip nodeorder = Some pos.
Hypothesis Htr :
  layout_trace nx (bipartite H) spacing nodeorder
    (connected_components nx (bipartite H)) 0 = Some tr.



End Overlap.


(** ** The layout that [draw] asks for *)






(** ** The line segments of [draw_hyper_edges] *)

Lemma pairs_member H node e : (node, e) ∈ pairs H ↔ member H node e.
Proof.
  unfold pairs, member. rewrite list_elem_of_bind. split.
  - intros (ed & Hin & Hed). apply list_elem_of_fmap in Hin as (v & [= -> ->] & Hv).
    eauto.
  - intros (ed & Hed & <- & Hv). exists ed. split; [|done].
    apply list_elem_of_fmap. eauto.
Qed.




(** ** Ranks *)

Lemma index_dict_from_notin i l (m : gmap ident Z) v :
  v ∉ l → index_dict_from i l m !! v = m !! v.
Proof.
  revert i m. induction l as [|u l IH]; intros i m Hnin; simpl; [done|].
  apply not_elem_of_cons in Hnin as [Hne Hnin].
  rewrite IH by done. by rewrite lookup_insert_ne.
Qed.

Lemma index_dict_from_lookup i l (m : gmap ident Z) k v :
  NoDup l → l !! k = Some v →
  index_dict_from i l m !! v = Some (Z.of_nat (i + k)).
Proof.
  revert i m k. induction l as [|u l IH]; intros i m k Hnd Hk; [done|].
  apply NoDup_cons in Hnd as [Hu Hnd]. destruct k as [|k]; simpl in *.
  - simplify_eq. rewrite index_dict_from_notin by done.
    rewrite lookup_insert_eq. by rewrite Nat.add_0_r.
  - rewrite (IH (S i) _ k) by done. do 2 f_equal. lia.
Qed.

Lemma index_dict_from_is_Some i l (m : gmap ident Z) v :
  v ∈ l → is_Some (index_dict_from i l m !! v).
Proof.
  revert i m. induction l as [|u l IH]; intros i m Hin; simpl.
  - by apply elem_of_nil in Hin.
  - destruct (decide (v ∈ l)) as [Hl|Hl]; [by apply IH|].
    apply elem_of_cons in Hin as [->|Hin]; [|done].
    rewrite index_dict_from_notin by done. rewrite lookup_insert_eq. eauto.
Qed.

Lemma index_dict_lookup l k v :
  NoDup l → l !! k = Some v → index_dict l !! v = Some (Z.of_nat k).
Proof. intros Hnd Hk. by apply (index_dict_from_lookup 0 l ∅ k v). Qed.

Lemma index_dict_is_Some l v : v ∈ l → is_Some (index_dict l !! v).
Proof. apply index_dict_from_is_Some. Qed.

Lemma index_dict_None l v : v ∉ l → index_dict l !! v = None.
Proof.
  intros Hnin. unfold index_dict. by rewrite index_dict_from_notin.
Qed.

(** ** When the layout returns *)

Section Returns.

Variables (nx : networkx) (G : Graph) (spacing : Q).
Variable nodeorder : option (gmap ident Z).

Lemma layout_trace_is_Some cis o :
  (∀ ci, ci ∈ cis → is_Some (component_columns nx nodeorder G ci)) →
  is_Some (layout_trace nx G spacing nodeorder cis o).
Proof.
  revert o. induction cis as [|ci cis IH]; intros o Hall; simpl; [eauto|].
  destruct (Hall ci) as [[vs es] ->]; [by left|]. simpl.
  destruct (IH (o + (inject_Z (Z.of_nat (Nat.max (length vs) (length es)))
                     + spacing))%Q) as [tr ->]; [|simpl; eauto].
  intros c Hc. apply Hall. by right.
Qed.

Lemma layout_trace_None cis o ci :
  ci ∈ cis → component_columns nx nodeorder G ci = None →
  layout_trace nx G spacing nodeorder cis o = None.
Proof.
  revert o. induction cis as [|c cis IH]; intros o Hin Hnone; simpl.
  - by apply elem_of_nil in Hin.
  - apply elem_of_cons in Hin as [<-|Hin]; [by rewrite Hnone|].
    destruct (component_columns nx nodeorder G c) as [[vs es]|]; [|done].
    simpl. by rewrite IH.
Qed.

Lemma component_columns_is_Some ci key :
  component_key nx nodeorder (subgraph G ci) = Some key →
  (∀ j v, 2 ≤ length (side (subgraph G ci) j) →
          v ∈ side (subgraph G ci) j → is_Some (key v)) →
  is_Some (component_columns nx nodeorder G ci).
Proof.
  intros Hkey Hranked. unfold component_columns. rewrite Hkey. simpl.
  assert (∀ j, is_Some (py_sorted key (side (subgraph G ci) j))) as Hs.
  { intros j. destruct (decide (2 ≤ length (side (subgraph G ci) j))).
    - apply py_sorted_ranked. eauto.
    - rewrite py_sorted_short by lia. eauto. }
  destruct (Hs 0) as [vs ->], (Hs 1) as [es ->]. simpl. eauto.
Qed.

End Returns.

(** ** A caller-supplied node order *)

Lemma partition_component_NoDup nx H ci :
  components_partition nx (bipartite H) →
  ci ∈ connected_components nx (bipartite H) → NoDup ci.
Proof.
  intros Hpart Hci.
  assert (NoDup (mjoin (connected_components nx (bipartite H)))) as Hnd
    by (rewrite Hpart; apply bipartite_NoDup).
  apply list_elem_of_split in Hci as (l1 & l2 & Heq). rewrite Heq in Hnd.
  rewrite join_app in Hnd. apply NoDup_app in Hnd as (_ & _ & Hnd).
  simpl in Hnd. by apply NoDup_app in Hnd as (? & _ & _).
Qed.

Section NodeOrder.

Variables (nx : networkx) (H : Hypergraph) (no : gmap ident Z).

Hypothesis Hpart : components_partition nx (bipartite H).
Hypothesis Hnodes : ∀ v, v ∈ H_nodes H → is_str v = false.
Hypothesis Hedges : ∀ e, e ∈ edge_uids H → is_str e = true.

(** The names that line 50 takes for hyperedges are the hyperedges of the
    component, in the order of the component. *)
Lemma edge_names_component ci :
  ci ∈ connected_components nx (bipartite H) →
  filter (λ v, is_str v = true) (vertices (subgraph (bipartite H) ci)) =
  filter (λ v, v ∈ edge_uids H) ci.
Proof using Hpart Hnodes Hedges.
  intros Hci. rewrite vertices_subgraph, list_filter_filter.
  apply filter_ext_elem. intros v Hv.
  assert (v ∈ vertices (bipartite H)) as Hin
    by by eapply partition_component_vertices.
  pose proof Hin as Hin'. apply bipartite_vertices in Hin' as [Hn|He].
  - specialize (Hnodes v Hn). split; [intros [? _]; congruence|].
    intros He. specialize (Hedges v He). congruence.
  - specialize (Hedges v He). tauto.
Qed.

Lemma nodeorder_key_node ci key v :
  ci ∈ connected_components nx (bipartite H) →
  component_key nx (Some no) (subgraph (bipartite H) ci) = Some key →
  v ∈ H_nodes H → key v = no !! v.
Proof using Hpart Hnodes Hedges.
  intros Hci [= <-] Hv. rewrite edge_names_component by done.
  apply lookup_union_r, index_dict_None.
  rewrite list_elem_of_filter. intros [He _].
  specialize (Hnodes v Hv). specialize (Hedges v He). congruence.
Qed.

Lemma nodeorder_key_edge ci key i e :
  ci ∈ connected_components nx (bipartite H) →
  component_key nx (Some no) (subgraph (bipartite H) ci) = Some key →
  filter (λ v, v ∈ edge_uids H) ci !! i = Some e →
  key e = Some (Z.of_nat i).
Proof using Hpart Hnodes Hedges.
  intros Hci [= <-] Hi. rewrite edge_names_component by done.
  apply lookup_union_Some_l, index_dict_lookup; [|done].
  apply NoDup_filter. by eapply partition_component_NoDup.
Qed.

Lemma nodeorder_columns ci :
  (∀ v, v ∈ H_nodes H → is_Some (no !! v)) →
  ci ∈ connected_components nx (bipartite H) →
  is_Some (component_columns nx (Some no) (bipartite H) ci).
Proof using Hpart Hnodes Hedges.
  intros Htotal Hci.
  destruct (component_key nx (Some no) (subgraph (bipartite H) ci))
    as [key|] eqn:Hkey; [|done].
  apply (component_columns_is_Some _ _ _ _ key Hkey).
  intros j v _ Hv. rewrite side_subgraph in Hv.
  apply list_elem_of_filter in Hv as [Hattr Hv].
  rewrite bipartite_attr in Hattr.
  destruct (decide (v ∈ H_nodes H)) as [Hn|Hn].
  - rewrite (nodeorder_key_node ci key v Hci Hkey Hn). by apply Htotal.
  - destruct (decide (v ∈ edge_uids H)) as [He|He]; [|done].
    assert (v ∈ filter (λ v, v ∈ edge_uids H) ci) as Hin
      by by apply list_elem_of_filter.
    apply list_elem_of_lookup in Hin as [i Hi].
    rewrite (nodeorder_key_edge ci key i v Hci Hkey Hi). eauto.
Qed.

End NodeOrder.

(** C6, as amended. When hyperedge identifiers are strs and node
    identifiers are not, and [nodeorder] ranks every node, the layout
    returns a position map; in each component the key is one lookup that
    gives a node the rank of [nodeorder] and a hyperedge its index among
    the hyperedges of the component, and both columns are sorted by it. *)
Theorem total_nodeorder_layout nx H spacing width flip (no : gmap ident Z) :
  components_partition nx (bipartite H) →
  (∀ v, v ∈ H_nodes H → is_str v = false) →
  (∀ e, e ∈ edge_uids H → is_str e = true) →
  (∀ v, v ∈ H_nodes H → is_Some (no !! v)) →
  (∃ pos, layout_two_column nx H spacing width flip (Some no) = Some pos)
  ∧ ∀ ci, ci ∈ connected_components nx (bipartite H) →
      ∃ key vs es,
        component_key nx (Some no) (subgraph (bipartite H) ci) = Some key
        ∧ component_columns nx (Some no) (bipartite H) ci = Some (vs, es)
        ∧ sorted_by key vs ∧ sorted_by key es
        ∧ (∀ v, v ∈ H_nodes H → key v = no !! v)
        ∧ (∀ i e, filter (λ v, v ∈ edge_uids H) ci !! i = Some e →
                  key e = Some (Z.of_nat i)).
Proof.
  intros Hpart Hnodes Hedges Htotal. split.
  - rewrite layout_two_column_trace.
    destruct (layout_trace_is_Some nx (bipartite H) spacing (Some no)
                (connected_components nx (bipartite H)) 0) as [tr ->].
    + intros ci Hci. by apply nodeorder_columns.
    + simpl. eauto.
  - intros ci Hci.
    destruct (nodeorder_columns nx H no Hpart Hnodes Hedges ci Htotal Hci)
      as [[vs es] Hcols].
    destruct (component_columns_sorted _ _ _ _ _ _ Hcols)
      as (key & Hkey & Hvs & Hes).
    exists key, vs, es. repeat split; try done.
    + intros v Hv. by eapply nodeorder_key_node.
    + intros i e Hi. by eapply nodeorder_key_edge.
Qed.

(** C6, as stated, fails: with nodes a, b in one hyperedge and a
    [nodeorder] that ranks only a, [sorted] compares the rank of a with
    [None] and the layout raises. *)
Lemma partial_nodeorder_raises :
  layout_two_column NxRef.nx H_pair 0 1 false (Some {[a_ := 5%Z]}) = None.
Proof. vm_compute. reflexivity. Qed.

(** ** Trivial components and the ordering routine *)





(** ** Determinism *)




(** ** What [draw] does to the caller's dicts *)

Section DrawStore.

Variable get_frozenset_label : list ident → bool → gmap ident string.
Variable nx : networkx.

Lemma edge_kwargs_or_new_old σ arg l d :
  σ !! l = Some d → (edge_kwargs_or_new σ arg).2 !! l = Some d.
Proof.
  intros Hl. unfold edge_kwargs_or_new.
  assert (fresh (dom σ) ≠ l) as Hne.
  { intros <-. apply (is_fresh (dom σ)). apply elem_of_dom. eauto. }
  destruct arg as [l'|]; simpl; [|by rewrite lookup_insert_ne].
  destruct (σ !! l') as [d'|]; simpl; [|by rewrite lookup_insert_ne].
  destruct (decide (d' = ∅)); simpl; [by rewrite lookup_insert_ne|done].
Qed.

(** Without colour cycling [draw] leaves every dict of the caller as it
    was. *)
Lemma draw_without_color_preserves H args σ ax l d :
  with_color args = false → σ !! l = Some d →
  (draw get_frozenset_label nx H args σ ax).1 !! l = Some d.
Proof.
  intros Hc Hl. unfold draw.
  pose proof (edge_kwargs_or_new_old σ (edge_kwargs args) l d Hl) as Hold.
  destruct (edge_kwargs_or_new σ (edge_kwargs args)) as [kw σ0].
  destruct (layout_two_column _ _ _ _ _ _) as [pos|]; [|done].
  unfold draw_with_pos. by rewrite Hc.
Qed.

(** With colour cycling, a non-empty [edge_kwargs] dict of the caller
    comes back with a ["color"] entry. *)
Lemma draw_writes_color H args σ ax l d pos :
  with_color args = true → edge_kwargs args = Some l →
  σ !! l = Some d → d ≠ ∅ →
  layout_two_column nx H 0 (column_spacing args) (flip_orientation args)
    (nodeorder args) = Some pos →
  (draw get_frozenset_label nx H args σ ax).1 !! l
  = Some (<["color" := KDict (color_cycle H)]> d).
Proof.
  intros Hc Hkw Hl Hne Hlay. unfold draw, edge_kwargs_or_new.
  rewrite Hkw, Hl, decide_False by done. rewrite Hlay.
  unfold draw_with_pos. rewrite Hc. simpl.
  by rewrite lookup_alter_eq, Hl.
Qed.

End DrawStore.

(** C9 fails on the code: after [draw(H, edge_kwargs=d)] with the default
    [with_color=True], the caller's dict [d] holds a new ["color"] entry. *)
Theorem draw_mutates_edge_kwargs :
  (draw (λ _ _, ∅) NxRef.nx H_pair caller_args caller_store []).1
    !! 1%positive
  = Some (<["color" := KDict {[ e1_ := 0 ]}]>
            {[ "linewidths" := KPlain "2" ]})
  ∧ (draw (λ _ _, ∅) NxRef.nx H_pair caller_args caller_store []).1
    ≠ caller_store.
Proof.
  assert ((draw (λ _ _, ∅) NxRef.nx H_pair caller_args caller_store []).1
            !! 1%positive
          = Some (<["color" := KDict {[ e1_ := 0 ]}]>
                    {[ "linewidths" := KPlain "2" ]})) as Hd.
  { by erewrite draw_writes_color. }
  split; [done|]. intros Heq. rewrite Heq in Hd.
  unfold caller_store in Hd. rewrite lookup_singleton_eq in Hd.
  apply (inj Some) in Hd.
  assert (({[ "linewidths" := KPlain "2" ]} : gmap string kwvalue)
            !! "color" = Some (KDict {[ e1_ := 0 ]})) as Hcol
    by (rewrite Hd; apply lookup_insert_eq).
  by rewrite lookup_singleton_ne in Hcol.
Qed.

(** * The statements on the sample hypergraphs *)

Lemma H_two_partition : components_partition NxRef.nx (bipartite H_two).
Proof.
  apply components_partition_check; by apply (bool_decide_unpack _).
Qed.

Lemma H_pair_partition : components_partition NxRef.nx (bipartite H_pair).
Proof.
  apply components_partition_check; by apply (bool_decide_unpack _).
Qed.


(** The layout of the two disjoint hyperedges has the keys a, b, e1,
    e2. *)
Lemma layout_keys_witness :
  ∃ pos,
    layout_two_column NxRef.nx H_two 0 1 false None = Some pos
    ∧ ∀ v, is_Some (pos !! v) ↔ v ∈ H_nodes H_two ∨ v ∈ edge_uids H_two.
Proof.
  pose (pos := default ∅ (layout_two_column NxRef.nx H_two 0 1 false None)).
  assert (layout_two_column NxRef.nx H_two 0 1 false None = Some pos)
    as Hlay by (vm_compute; reflexivity).
  exists pos. split; [exact Hlay|].
  apply (layout_keys NxRef.nx H_two 0 1 false None pos); [|exact Hlay].
  apply components_partition_cover, H_two_partition.
Defined.

(** Two disjoint singleton hyperedges with spacing 1/2: two components of
    height 1; the second offset is the first height plus the spacing. *)
Lemma stacking_formula_witness :
  ∃ tr p q,
    layout_trace NxRef.nx (bipartite H_two) (1 # 2) None
      (connected_components NxRef.nx (bipartite H_two)) 0 = Some tr
    ∧ tr = [p; q]
    ∧ pl_height p = 1 ∧ pl_height q = 1
    ∧ pl_offset p = 0%Q
    ∧ pl_offset q = (pl_offset p + (inject_Z (Z.of_nat (pl_height p)) + (1 # 2)))%Q.
Proof.
  pose (pos :=
    default ∅ (layout_two_column NxRef.nx H_two (1 # 2) 1 false None)).
  assert (layout_two_column NxRef.nx H_two (1 # 2) 1 false None = Some pos)
    as Hlay by (vm_compute; reflexivity).
  destruct (stacking_formula NxRef.nx H_two (1 # 2) 1 false None pos
              H_two_partition Hlay)
    as (tr & Htr & Hlen & Hfirst & Hstep & _).
  destruct tr as [|p [|q [|r tr]]]; try discriminate Hlen.
  exists [p; q], p, q. split; [exact Htr|]. split; [reflexivity|].
  assert (pl_height p = 1 ∧ pl_height q = 1) as [Hp Hq].
  { vm_compute in Htr. injection Htr as <- <-. split; reflexivity. }
  split; [exact Hp|]. split; [exact Hq|].
  split; [exact (Hfirst p eq_refl)|].
  exact (Hstep 0 p q eq_refl eq_refl).
Defined.




(** A [nodeorder] that ranks both a and b (b first). *)
Lemma total_nodeorder_layout_witness :
  ∃ pos,
    layout_two_column NxRef.nx H_pair 0 1 false
      (Some {[ a_ := 5%Z; b_ := 3%Z ]}) = Some pos.
Proof.
  apply (total_nodeorder_layout NxRef.nx H_pair 0 1 false
           {[ a_ := 5%Z; b_ := 3%Z ]}).
  - exact H_pair_partition.
  - intros v Hv. simpl in Hv. rewrite !elem_of_cons, elem_of_nil in Hv.
    destruct Hv as [->|[->|[]]]; reflexivity.
  - intros e He. assert (e ∈ [e1_]) as Hin by exact He.
    rewrite !elem_of_cons, elem_of_nil in Hin.
    destruct Hin as [->|[]]; reflexivity.
  - intros v Hv. simpl in Hv. rewrite !elem_of_cons, elem_of_nil in Hv.
    destruct Hv as [->|[->|[]]]; vm_compute; eauto.
Defined.




(** * Further properties of the renderer *)

(** ** When [draw_hyper_edges] returns *)

Lemma segments_is_Some (pos : gmap ident point) ps :
  is_Some (segments pos ps) ↔
  ∀ p, p ∈ ps → is_Some (pos !! p.1) ∧ is_Some (pos !! p.2).
Proof.
  unfold segments. rewrite mapM_is_Some, Forall_forall.
  split; intros Hall p Hp; specialize (Hall p Hp); simpl in *.
  - destruct (pos !! p.1), (pos !! p.2); simpl in *;
      split; try done; by destruct Hall.
  - destruct Hall as [[a ->] [b ->]]. by eexists.
Qed.

Lemma segments_length (pos : gmap ident point) ps segs :
  segments pos ps = Some segs → length segs = length ps.
Proof. intros Hs. symmetry. by eapply length_mapM. Qed.

Lemma expand_kwargs_None ps (kwargs : gmap string kwvalue) k :
  expand_kwargs ps kwargs !! k = None ↔ kwargs !! k = None.
Proof. unfold expand_kwargs. by rewrite lookup_fmap, fmap_None. Qed.

Lemma lookup_all_is_Some {A} (m : gmap ident A) (l : list ident) :
  is_Some (mapM (λ v, m !! v) l) ↔ ∀ v, v ∈ l → is_Some (m !! v).
Proof. by rewrite mapM_is_Some, Forall_forall. Qed.

(** The matplotlib constructors being taken to return, [draw_hyper_edges]
    returns exactly when no lookup misses and no keyword is given twice:
    every node and every hyperedge identifier of a membership pair has a
    position, every node has a position, the caller's keywords hold
    neither ["color"] nor ["zorder"], and a [nodecolor] dict has a colour
    for every node. *)
Theorem draw_hyper_edges_returns H (pos : gmap ident point) ax edgecolor
    nodecolor nodesize kwargs :
  is_Some (draw_hyper_edges H pos ax edgecolor nodecolor nodesize kwargs) ↔
  (∀ p, p ∈ pairs H → is_Some (pos !! p.1) ∧ is_Some (pos !! p.2))
  ∧ (kwargs !! "color" = None ∧ kwargs !! "zorder" = None)
  ∧ (∀ node, node ∈ H_nodes H → is_Some (pos !! node))
  ∧ (∀ d, nodecolor = NcDict d →
       ∀ node, node ∈ H_nodes H → is_Some (d !! node)).
Proof.
  unfold draw_hyper_edges.
  rewrite <- segments_is_Some, <- (lookup_all_is_Some pos).
  rewrite <- (expand_kwargs_None (pairs H) kwargs "color"),
    <- (expand_kwargs_None (pairs H) kwargs "zorder").
  destruct (segments pos (pairs H)) as [segs|]; simpl;
    [|split; [by intros []%is_Some_None|by intros [[]%is_Some_None _]]].
  case_guard as Hg; simpl;
    [|split; [by intros []%is_Some_None|by intros (_ & ? & _)]].
  destruct (mapM (λ node, pos !! node) (H_nodes H)) as [patches|]; simpl;
    [|split; [by intros []%is_Some_None|by intros (_ & _ & []%is_Some_None & _)]].
  destruct nodecolor as [|c|d]; simpl.
  - split; [|by eexists]. intros _.
    split_and!; [by eexists|apply Hg|apply Hg|by eexists|done].
  - split; [|by eexists]. intros _.
    split_and!; [by eexists|apply Hg|apply Hg|by eexists|done].
  - destruct (mapM (λ node, d !! node) (H_nodes H)) as [cs|] eqn:Hcs; simpl.
    + split; [|by eexists]. intros _.
      split_and!; [by eexists|apply Hg|apply Hg|by eexists|].
      intros d' [= <-]. apply lookup_all_is_Some. by rewrite Hcs.
    + split; [by intros []%is_Some_None|].
      intros (_ & _ & _ & Hd). specialize (Hd d eq_refl).
      apply lookup_all_is_Some in Hd. rewrite Hcs in Hd.
      by apply is_Some_None in Hd.
Qed.

(** ** What [draw_hyper_edges] adds to the plotting surface *)

(** When [draw_hyper_edges] returns, the artists already on the surface
    are kept and two are added: the line collection, with one segment
    per membership pair, the caller's [edgecolor] and the expanded
    keywords, and then the patch collection, with one circle of radius
    [nodesize] per node, in the order of [H.nodes] and centred at
    [pos[node]]. The circles are red when [nodecolor] is absent, of the
    given colour when it is one colour, and coloured node by node when it
    is a dict. *)
Theorem draw_hyper_edges_artists H (pos : gmap ident point) ax edgecolor
    nodecolor nodesize kwargs ax' :
  draw_hyper_edges H pos ax edgecolor nodecolor nodesize kwargs = Some ax' →
  ∃ segs patches color,
    ax' = ax ++ [LineCollection segs edgecolor (expand_kwargs (pairs H) kwargs);
                 PatchCollection patches nodesize color]
    ∧ length segs = length (pairs H)
    ∧ Forall2 (λ node c, pos !! node = Some c) (H_nodes H) patches
    ∧ match nodecolor with
      | NcNone => color = inl "red"
      | NcFlat c => color = inl c
      | NcDict d =>
          ∃ cs, color = inr cs
                ∧ Forall2 (λ node c, d !! node = Some c) (H_nodes H) cs
      end.
Proof.
  unfold draw_hyper_edges. intros Hd.
  destruct (segments pos (pairs H)) as [segs|] eqn:Hsegs; [|done].
  simpl in Hd. case_guard as Hg; [|done]. simpl in Hd.
  destruct (mapM (λ node, pos !! node) (H_nodes H)) as [patches|] eqn:Hp;
    [|done].
  simpl in Hd. apply mapM_Some in Hp.
  apply segments_length in Hsegs.
  destruct nodecolor as [|c|d]; simpl in Hd.
  - injection Hd as <-. exists segs, patches, (inl "red").
    by rewrite <- (assoc_L (++)).
  - injection Hd as <-. exists segs, patches, (inl c).
    by rewrite <- (assoc_L (++)).
  - destruct (mapM (λ node, d !! node) (H_nodes H)) as [cs|] eqn:Hcs;
      [|done].
    simpl in Hd. injection Hd as <-. apply mapM_Some in Hcs.
    exists segs, patches, (inr cs). rewrite <- (assoc_L (++)). eauto 10.
Qed.

(** Lines 95-98: a keyword whose value is a dict reaches the line
    collection as a list aligned with the membership pairs, entry [i]
    being [dict.get] of the hyperedge of pair [i] ([None] when the dict
    has no entry for it); any other value is passed as it is, no keyword
    is added or dropped, and no value is a dict any more. *)
Theorem expand_kwargs_spec ps (kwargs : gmap string kwvalue) k :
  match kwargs !! k with
  | None => expand_kwargs ps kwargs !! k = None
  | Some (KDict d) =>
      ∃ l, expand_kwargs ps kwargs !! k = Some (KList l)
           ∧ length l = length ps
           ∧ ∀ i p, ps !! i = Some p → l !! i = Some (d !! p.2)
  | Some v =>
      expand_kwargs ps kwargs !! k = Some v
  end
  ∧ ∀ d, expand_kwargs ps kwargs !! k ≠ Some (KDict d).
Proof.
  unfold expand_kwargs. rewrite lookup_fmap.
  destruct (kwargs !! k) as [[s|d|l]|]; simpl; split; try done.
  eexists. split; [done|]. split; [by rewrite length_fmap|].
  intros i p Hi. by rewrite list_lookup_fmap, Hi.
Qed.

(** ** The labelling passes *)

Lemma annotate_all_Some (pos : gmap ident point) labels at_ ha va points anns :
  annotate_all pos labels at_ ha va points = Some anns ↔
  Forall2 (λ v a, ∃ xy, pos !! v = Some xy
                        ∧ a = Annotate (label_of labels v) (at_ xy) ha va)
    points anns.
Proof.
  unfold annotate_all. rewrite mapM_Some.
  split; intros HF; (eapply Forall2_impl; [exact HF|]); intros v a; simpl.
  - destruct (pos !! v) as [xy|]; simpl; [|done]. intros [= <-]. eauto.
  - by intros (xy & -> & ->).
Qed.

Lemma annotate_all_is_Some (pos : gmap ident point) labels at_ ha va points :
  is_Some (annotate_all pos labels at_ ha va points) ↔
  ∀ v, v ∈ points → is_Some (pos !! v).
Proof.
  unfold annotate_all. rewrite mapM_is_Some, Forall_forall.
  split; intros Hall v Hv; specialize (Hall v Hv); simpl in *.
  - destruct (pos !! v); [by eexists|]. by destruct Hall.
  - destruct Hall as [xy ->]. by eexists.
Qed.

Lemma labels_pass_is_Some (b : bool) (m : option (list artist)) :
  is_Some (if b then m else Some []) ↔ (b = true → is_Some m).
Proof. destruct b; [naive_solver|]. split; [done|by eexists]. Qed.

Lemma labels_passes_is_Some (ax : list artist) (mn me : option (list artist)) :
  is_Some (ns ← mn; es ← me; Some (ax ++ ns ++ es)) ↔ is_Some mn ∧ is_Some me.
Proof.
  destruct mn as [ns|], me as [es|]; simpl; split;
    try (by intros []%is_Some_None);
    try (by intros [[]%is_Some_None _]);
    try (by intros [_ []%is_Some_None]).
  - intros _. split; by eexists.
  - intros _. by eexists.
Qed.

(** [ax.annotate] being taken to return, [draw_hyper_column_labels]
    returns exactly when every vertex it is asked to label has a
    position: the nodes when [with_node_labels] is set, the hyperedges
    when [with_edge_labels] is set. With both flags off it reads no
    position at all. *)
Theorem draw_hyper_column_labels_returns H (pos : gmap ident point) labels
    wn we ax :
  is_Some (draw_hyper_column_labels H pos labels wn we ax) ↔
  (wn = true → ∀ v, v ∈ H_nodes H → is_Some (pos !! v))
  ∧ (we = true → ∀ e, e ∈ edge_uids H → is_Some (pos !! e)).
Proof.
  unfold draw_hyper_column_labels.
  by rewrite labels_passes_is_Some, !labels_pass_is_Some,
    !annotate_all_is_Some.
Qed.

(** When [draw_hyper_column_labels] returns, the surface holds what it
    held before, followed by one annotation per node, in the order of
    [H.nodes], and then one per hyperedge, in the order of [H.edges()];
    each is anchored at the position of its vertex, node labels with
    [ha="right"], hyperedge labels with [ha="left"], and its text is the
    entry of [labels] for the vertex, or the identifier itself when
    [labels] has none. A pass that is switched off adds nothing. *)
Theorem draw_hyper_column_labels_artists H (pos : gmap ident point) labels
    wn we ax ax' :
  draw_hyper_column_labels H pos labels wn we ax = Some ax' →
  ∃ ns es,
    ax' = ax ++ ns ++ es
    ∧ (if wn
       then Forall2 (λ v a, ∃ xy, pos !! v = Some xy
                       ∧ a = Annotate (label_of labels v) xy "right" "center")
              (H_nodes H) ns
       else ns = [])
    ∧ (if we
       then Forall2 (λ v a, ∃ xy, pos !! v = Some xy
                       ∧ a = Annotate (label_of labels v) xy "left" "center")
              (edge_uids H) es
       else es = []).
Proof.
  unfold draw_hyper_column_labels. intros Hd.
  apply bind_Some in Hd as (ns & Hns & Hd).
  apply bind_Some in Hd as (es & Hes & Hd).
  injection Hd as <-. exists ns, es. split; [done|]. split.
  - destruct wn; [|by injection Hns]. by apply annotate_all_Some in Hns.
  - destruct we; [|by injection Hes]. by apply annotate_all_Some in Hes.
Qed.

Lemma annotate_all_map (pos : gmap ident point) labels at_ ha va ha' va'
    (f : artist → artist) points :
  (∀ text xy, f (Annotate text xy ha va) = Annotate text (at_ xy) ha' va') →
  annotate_all pos labels at_ ha' va' points =
  (λ anns : list artist, f <$> anns)
    <$> annotate_all pos labels id ha va points.
Proof.
  intros Hf. unfold annotate_all.
  induction points as [|v points IH]; [done|].
  cbn [mapM]. rewrite IH. clear IH.
  destruct (pos !! v) as [xy|]; [|done]. simpl.
  destruct (mapM _ points) as [anns|]; simpl; [|done].
  by rewrite Hf.
Qed.

(** The row pass is the column pass with every label moved: it raises on
    the same inputs and, when it returns, it has added the labels of the
    column pass in the same order, the same texts, each anchored 0.15
    below the position of its vertex with [ha="center"], node labels with
    [va="top"] and hyperedge labels with [va="bottom"]. *)
Theorem draw_hyper_row_labels_shift H (pos : gmap ident point) labels wn we ax :
  draw_hyper_row_labels H pos labels wn we ax =
  (λ new, ax ++ (row_label <$> new))
    <$> draw_hyper_column_labels H pos labels wn we [].
Proof.
  unfold draw_hyper_row_labels, draw_hyper_column_labels.
  rewrite (annotate_all_map pos labels _ "right" "center" "center" "top"
             row_label (H_nodes H)) by done.
  rewrite (annotate_all_map pos labels _ "left" "center" "center" "bottom"
             row_label (edge_uids H)) by done.
  destruct wn, we; simpl;
    repeat match goal with
    | |- context [annotate_all ?p ?l ?f ?h ?v ?pts] =>
        destruct (annotate_all p l f h v pts); simpl
    end;
    try done; by rewrite ?fmap_app, ?app_nil_r.
Qed.

(** ** The colour cycle *)

Lemma color_cycle_from_notin i es (m : gmap ident nat) e :
  e ∉ es → color_cycle_from i es m !! e = m !! e.
Proof.
  revert i m. induction es as [|e' es IH]; intros i m Hnotin; simpl; [done|].
  apply not_elem_of_cons in Hnotin as [Hne Hnotin].
  rewrite IH by done. by rewrite lookup_insert_ne.
Qed.

Lemma color_cycle_from_lookup i es (m : gmap ident nat) k e :
  NoDup es → es !! k = Some e →
  color_cycle_from i es m !! e = Some ((i + k) mod 10).
Proof.
  revert i m k. induction es as [|e' es IH]; intros i m k Hnd Hk; [done|].
  apply NoDup_cons in Hnd as [Hnotin Hnd]. destruct k as [|k]; simpl in *.
  - injection Hk as ->. rewrite color_cycle_from_notin by done.
    by rewrite lookup_insert_eq, Nat.add_0_r.
  - replace (i + S k) with (S i + k) by lia. by apply IH.
Qed.

(** With distinct hyperedge identifiers, the hyperedge of index [i] in
    [H.edges()] gets colour [i mod 10] of the palette, so the colours
    repeat every ten hyperedges; nothing but a hyperedge identifier gets a
    colour. *)
Theorem color_cycle_lookup H :
  NoDup (edge_uids H) →
  (∀ i e, edge_uids H !! i = Some e → color_cycle H !! e = Some (i mod 10))
  ∧ (∀ e, e ∉ edge_uids H → color_cycle H !! e = None).
Proof.
  intros Hnd. split.
  - intros i e Hi. unfold color_cycle.
    by rewrite (color_cycle_from_lookup 0 _ _ i).
  - intros e He. unfold color_cycle. by rewrite color_cycle_from_notin.
Qed.

(** Eleven hyperedges: the first and the eleventh share colour 0. *)
Lemma color_cycle_lookup_witness :
  color_cycle (mkHypergraph [] ((λ n, mkEdge (IInt n) []) <$>
                 [0; 1; 2; 3; 4; 5; 6; 7; 8; 9; 10]%Z)) !! IInt 10
  = Some 0
  ∧ color_cycle (mkHypergraph [] ((λ n, mkEdge (IInt n) []) <$>
                   [0; 1; 2; 3; 4; 5; 6; 7; 8; 9; 10]%Z)) !! IInt 0
    = Some 0.
Proof.
  assert (NoDup (edge_uids (mkHypergraph [] ((λ n, mkEdge (IInt n) []) <$>
                   [0; 1; 2; 3; 4; 5; 6; 7; 8; 9; 10]%Z)))) as Hnd
    by (by apply (bool_decide_unpack _)).
  split.
  - exact (proj1 (color_cycle_lookup _ Hnd) 10 (IInt 10) eq_refl).
  - exact (proj1 (color_cycle_lookup _ Hnd) 0 (IInt 0) eq_refl).
Defined.

(** ** [draw] as a whole *)

Lemma draw_hyper_edges_duplicate_keyword H (pos : gmap ident point) ax
    edgecolor nodecolor nodesize kwargs :
  is_Some (kwargs !! "color") ∨ is_Some (kwargs !! "zorder") →
  draw_hyper_edges H pos ax edgecolor nodecolor nodesize kwargs = None.
Proof.
  intros Hdup. unfold draw_hyper_edges.
  destruct (segments pos (pairs H)) as [segs|]; [|done]. simpl.
  case_guard as Hg; [|done]. exfalso. destruct Hg as [Hc Hz].
  apply (proj1 (expand_kwargs_None _ _ _)) in Hc.
  apply (proj1 (expand_kwargs_None _ _ _)) in Hz. rewrite Hc, Hz in Hdup.
  by destruct Hdup as [[]%is_Some_None|[]%is_Some_None].
Qed.

Lemma layout_covers nx H spacing width flip nodeorder pos v :
  components_cover nx (bipartite H) →
  layout_two_column nx H spacing width flip nodeorder = Some pos →
  v ∈ H_nodes H ∨ v ∈ edge_uids H → is_Some (pos !! v).
Proof.
  intros Hcover Hlay Hv. rewrite layout_two_column_trace in Hlay.
  apply fmap_Some in Hlay as (tr & Htr & ->).
  rewrite <- elem_of_dom, replay_dom, dom_empty_L, elem_of_union,
    elem_of_list_to_set, (layout_trace_elem _ _ _ _ _ _ _ _ Htr),
    <- bipartite_attr_vertex.
  apply bipartite_vertices in Hv. right. split; [by apply Hcover|done].
Qed.

Lemma labels_either_return H (pos : gmap ident point) labels wn we ax
    (flip : bool) :
  (∀ v, v ∈ H_nodes H ∨ v ∈ edge_uids H → is_Some (pos !! v)) →
  is_Some (if flip
           then draw_hyper_row_labels H pos labels wn we ax
           else draw_hyper_column_labels H pos labels wn we ax).
Proof.
  intros Hpos.
  destruct flip; unfold draw_hyper_row_labels, draw_hyper_column_labels;
    rewrite labels_passes_is_Some, !labels_pass_is_Some,
      !annotate_all_is_Some; naive_solver.
Qed.

Section DrawWhole.

Variable get_frozenset_label : list ident → bool → gmap ident string.
Variable nx : networkx.

(** The dict that line 243 binds to [edge_kwargs] is in the store. *)
Lemma edge_kwargs_or_new_bound σ arg :
  is_Some ((edge_kwargs_or_new σ arg).2 !! (edge_kwargs_or_new σ arg).1).
Proof.
  unfold edge_kwargs_or_new.
  destruct arg as [l|]; simpl; [|by rewrite lookup_insert_eq].
  destruct (σ !! l) as [d|] eqn:Hl; simpl; [|by rewrite lookup_insert_eq].
  destruct (decide (d = ∅)); simpl; [by rewrite lookup_insert_eq|].
  by rewrite Hl.
Qed.

(** It holds what the caller's dict holds, and nothing when the caller
    gave none. *)
Lemma edge_kwargs_or_new_dict σ arg :
  default ∅ ((edge_kwargs_or_new σ arg).2 !! (edge_kwargs_or_new σ arg).1)
  = default ∅ (arg ≫= (σ !!.)).
Proof.
  unfold edge_kwargs_or_new.
  destruct arg as [l|]; simpl; [|by rewrite lookup_insert_eq].
  destruct (σ !! l) as [d|] eqn:Hl; simpl; [|by rewrite lookup_insert_eq].
  destruct (decide (d = ∅)) as [->|]; simpl; [by rewrite lookup_insert_eq|].
  by rewrite Hl.
Qed.

(** It is the caller's dict only when that one is not empty. *)
Lemma edge_kwargs_or_new_alias σ arg l d :
  σ !! l = Some d → (edge_kwargs_or_new σ arg).1 = l →
  arg = Some l ∧ d ≠ ∅.
Proof.
  intros Hl. unfold edge_kwargs_or_new.
  assert (fresh (dom σ) ≠ l) as Hne.
  { intros <-. apply (is_fresh (dom σ)). apply elem_of_dom. eauto. }
  destruct arg as [l'|]; simpl; [|done].
  destruct (σ !! l') as [d'|] eqn:Hl'; simpl; [|done].
  destruct (decide (d' = ∅)); simpl; [done|].
  intros ->. rewrite Hl in Hl'. by injection Hl' as ->.
Qed.

Lemma color_keyword_twice H args σ ax :
  with_color args = true →
  (draw get_frozenset_label nx H args σ ax).2 = None.
Proof.
  intros Hc. unfold draw.
  pose proof (edge_kwargs_or_new_bound σ (edge_kwargs args)) as [d Hd].
  destruct (edge_kwargs_or_new σ (edge_kwargs args)) as [kw σ0].
  simpl in Hd.
  destruct (layout_two_column _ _ _ _ _ _) as [pos|]; [|done].
  unfold draw_with_pos. rewrite Hc. simpl.
  rewrite lookup_alter_eq, Hd. simpl.
  rewrite draw_hyper_edges_duplicate_keyword; [done|].
  left. by rewrite lookup_insert_eq.
Qed.

(** With colour cycling on, which is the default, [draw] raises whatever
    its other arguments are: it stores a ["color"] entry in
    [edge_kwargs] and passes the dict on as keywords to
    [draw_hyper_edges], whose call of [LineCollection] has a [color]
    keyword of its own, so that the keyword is given twice. *)
Theorem draw_with_color_raises H args σ ax :
  with_color args = true →
  (draw get_frozenset_label nx H args σ ax).2 = None.
Proof. apply color_keyword_twice. Qed.

(** [draw] writes to one dict at most: a dict of the caller that is not
    the [edge_kwargs] argument, or that is empty, is the same after the
    call, and so is every dict when colour cycling is off. *)
Theorem draw_frame H args σ ax l d :
  σ !! l = Some d →
  edge_kwargs args ≠ Some l ∨ d = ∅ ∨ with_color args = false →
  (draw get_frozenset_label nx H args σ ax).1 !! l = Some d.
Proof.
  intros Hl Hcase. unfold draw.
  pose proof (edge_kwargs_or_new_old σ (edge_kwargs args) l d Hl) as Hold.
  pose proof (edge_kwargs_or_new_alias σ (edge_kwargs args) l d Hl) as Halias.
  destruct (edge_kwargs_or_new σ (edge_kwargs args)) as [kw σ0].
  simpl in *.
  destruct (layout_two_column _ _ _ _ _ _) as [pos|]; [|done].
  unfold draw_with_pos. simpl.
  destruct (with_color args); [|done].
  destruct (decide (kw = l)) as [Heq|Hne]; [|by rewrite lookup_alter_ne].
  destruct (Halias Heq) as [Harg Hd].
  by destruct Hcase as [?|[?|?]].
Qed.

(** With colour cycling off, with hyperedges that hold nodes of [H] only,
    an [edge_kwargs] dict that holds none of the keywords passed by name
    and a [nodecolor] that is no dict, [draw] raises only if the layout
    raises (matplotlib being taken to return): the position map has every
    key that the rendering passes look up. *)
Theorem draw_returns H args σ ax :
  with_color args = false →
  components_cover nx (bipartite H) →
  (∀ node e, member H node e → node ∈ H_nodes H) →
  (∀ l d, edge_kwargs args = Some l → σ !! l = Some d →
          ∀ k, k ∈ passed_keywords → d !! k = None) →
  (∀ d, nodecolor args ≠ NcDict d) →
  is_Some (draw get_frozenset_label nx H args σ ax).2 ↔
  is_Some (layout_two_column nx H 0 (column_spacing args)
             (flip_orientation args) (nodeorder args)).
Proof.
  intros Hc Hcover Hmem Hkw Hnc. unfold draw.
  pose proof (edge_kwargs_or_new_dict σ (edge_kwargs args)) as Hdict.
  destruct (edge_kwargs_or_new σ (edge_kwargs args)) as [kw σ0].
  simpl in Hdict.
  destruct (layout_two_column _ _ _ _ _ _) as [pos|] eqn:Hlay;
    [|simpl; split; by intros []%is_Some_None].
  split; [by eexists|]. intros _.
  unfold draw_with_pos. rewrite Hc. cbn [snd]. rewrite Hdict.
  assert (∀ v, v ∈ H_nodes H ∨ v ∈ edge_uids H → is_Some (pos !! v))
    as Hpos by (intros v; by eapply layout_covers).
  destruct (draw_hyper_edges H pos ax (edgecolor args) (nodecolor args)
              (nodesize args) (default ∅ (edge_kwargs args ≫= (σ !!.))))
    as [ax1|] eqn:Hedges.
  - simpl.
    destruct (labels_either_return H pos
                (get_frozenset_label (edge_uids H) (with_edge_counts args)
                 ∪ get_frozenset_label (H_nodes H) (with_node_counts args))
                (with_node_labels args) (with_edge_labels args) ax1
                (flip_orientation args) Hpos) as [ax2 ->].
    by eexists.
  - exfalso. apply eq_None_not_Some in Hedges. apply Hedges.
    unfold draw_hyper_edges.
    assert (is_Some (segments pos (pairs H))) as [segs ->].
    { apply segments_is_Some. intros [node e] Hin. simpl.
      apply pairs_member in Hin as Hm. split; apply Hpos.
      - left. by eapply Hmem.
      - right. destruct Hm as (ed & Hed & <- & _).
        by apply list_elem_of_fmap_2. }
    simpl.
    assert (default ∅ (edge_kwargs args ≫= (σ !!.)) !! "color" = None
            ∧ default ∅ (edge_kwargs args ≫= (σ !!.)) !! "zorder" = None)
      as Hfree.
    { destruct (edge_kwargs args) as [l|]; simpl; [|done].
      destruct (σ !! l) as [d|] eqn:Hl; simpl; [|done].
      split; apply (Hkw l d eq_refl Hl); unfold passed_keywords;
        rewrite !elem_of_cons; auto 10. }
    rewrite option_guard_True
      by (split; apply expand_kwargs_None; apply Hfree).
    assert (is_Some (mapM (λ node, pos !! node) (H_nodes H))) as [ps ->].
    { apply lookup_all_is_Some. intros v Hv. apply Hpos. by left. }
    simpl. destruct (nodecolor args) as [|c|d]; simpl; try by eexists.
    by destruct (Hnc d).
Qed.

End DrawWhole.

(** ** The renderer on the sample hypergraphs *)

(** Drawing e1 = {a, b} with a dict of line widths per hyperedge and a
    dict of node colours. *)
Lemma draw_hyper_edges_artists_witness :
  ∃ ax' segs patches color,
    draw_hyper_edges H_pair pos_pair [AxisOff] (Some "black")
      (NcDict {[ a_ := "blue"; b_ := "green" ]}) (1 # 10)
      {[ "linewidths" := KDict {[ e1_ := 2 ]} ]} = Some ax'
    ∧ ax' = [AxisOff] ++
            [LineCollection segs (Some "black")
               (expand_kwargs (pairs H_pair)
                  {[ "linewidths" := KDict {[ e1_ := 2 ]} ]});
             PatchCollection patches (1 # 10) color]
    ∧ length segs = 2
    ∧ patches = [(0, 0)%Q; (0, 1)%Q]
    ∧ color = inr ["blue"; "green"].
Proof.
  pose (ax' := default [] (draw_hyper_edges H_pair pos_pair [AxisOff]
                 (Some "black") (NcDict {[ a_ := "blue"; b_ := "green" ]})
                 (1 # 10) {[ "linewidths" := KDict {[ e1_ := 2 ]} ]})).
  assert (draw_hyper_edges H_pair pos_pair [AxisOff] (Some "black")
            (NcDict {[ a_ := "blue"; b_ := "green" ]}) (1 # 10)
            {[ "linewidths" := KDict {[ e1_ := 2 ]} ]} = Some ax') as Hd
    by (vm_compute; reflexivity).
  destruct (draw_hyper_edges_artists _ _ _ _ _ _ _ _ Hd)
    as (segs & patches & color & Hax & Hlen & Hp & cs & -> & Hcs).
  exists ax', segs, patches, (inr cs).
  split; [exact Hd|]. split; [exact Hax|]. split; [exact Hlen|].
  apply Forall2_cons_inv_l in Hp as (p1 & patches1 & Hp1 & Hp & ->).
  apply Forall2_cons_inv_l in Hp as (p2 & patches2 & Hp2 & Hp & ->).
  apply Forall2_nil_inv_l in Hp as ->.
  apply Forall2_cons_inv_l in Hcs as (c1 & cs1 & Hc1 & Hcs & ->).
  apply Forall2_cons_inv_l in Hcs as (c2 & cs2 & Hc2 & Hcs & ->).
  apply Forall2_nil_inv_l in Hcs as ->.
  vm_compute in Hp1, Hp2, Hc1, Hc2.
  injection Hp1 as <-. injection Hp2 as <-.
  injection Hc1 as <-. injection Hc2 as <-. split; reflexivity.
Defined.

(** Labelling e1 = {a, b} with a custom label for a only. *)
Lemma draw_hyper_column_labels_artists_witness :
  ∃ ax' ns es,
    draw_hyper_column_labels H_pair pos_pair {[ a_ := "Alice" ]} true true
      [AxisOff] = Some ax'
    ∧ ax' = [AxisOff] ++ ns ++ es
    ∧ ns = [Annotate (inr "Alice") (0, 0)%Q "right" "center";
            Annotate (inl b_) (0, 1)%Q "right" "center"]
    ∧ es = [Annotate (inl e1_) (1, 1 # 2)%Q "left" "center"].
Proof.
  pose (ax' := default [] (draw_hyper_column_labels H_pair pos_pair
                 {[ a_ := "Alice" ]} true true [AxisOff])).
  assert (draw_hyper_column_labels H_pair pos_pair {[ a_ := "Alice" ]}
            true true [AxisOff] = Some ax') as Hd
    by (vm_compute; reflexivity).
  destruct (draw_hyper_column_labels_artists _ _ _ _ _ _ _ Hd)
    as (ns & es & Hax & Hns & Hes).
  exists ax', ns, es. split; [exact Hd|]. split; [exact Hax|].
  apply Forall2_cons_inv_l in Hns as (n1 & ns1 & (xy1 & Hp1 & ->) & Hns & ->).
  apply Forall2_cons_inv_l in Hns as (n2 & ns2 & (xy2 & Hp2 & ->) & Hns & ->).
  apply Forall2_nil_inv_l in Hns as ->.
  apply Forall2_cons_inv_l in Hes as (m1 & es1 & (xy3 & Hp3 & ->) & Hes & ->).
  apply Forall2_nil_inv_l in Hes as ->.
  vm_compute in Hp1, Hp2, Hp3.
  injection Hp1 as <-. injection Hp2 as <-. injection Hp3 as <-.
  split; reflexivity.
Defined.

(** [draw(H)] with all the defaults raises. *)
Lemma draw_with_color_raises_witness :
  (draw (λ _ _, ∅) NxRef.nx H_pair default_args ∅ []).2 = None.
Proof.
  apply (draw_with_color_raises (λ _ _, ∅) NxRef.nx H_pair default_args ∅ []).
  reflexivity.
Defined.

(** With colour cycling off, the caller's [{"linewidths": 2}] is
    untouched. *)
Lemma draw_frame_witness :
  (draw (λ _ _, ∅) NxRef.nx H_pair
     (mkDrawArgs true true false false false (Some 1%positive) 1 false None
        NcNone None (1 # 10))
     caller_store []).1 !! 1%positive
  = Some {[ "linewidths" := KPlain "2" ]}.
Proof.
  apply (draw_frame (λ _ _, ∅) NxRef.nx H_pair
           (mkDrawArgs true true false false false (Some 1%positive) 1 false
              None NcNone None (1 # 10))
           caller_store [] 1%positive {[ "linewidths" := KPlain "2" ]}).
  - reflexivity.
  - right. right. reflexivity.
Defined.

(** With colour cycling off, [draw] of e1 = {a, b} returns. *)
Lemma draw_returns_witness :
  is_Some (draw (λ _ _, ∅) NxRef.nx H_pair
             (mkDrawArgs true true false false false (Some 1%positive) 1
                false None NcNone None (1 # 10))
             caller_store []).2.
Proof.
  apply (draw_returns (λ _ _, ∅) NxRef.nx H_pair
           (mkDrawArgs true true false false false (Some 1%positive) 1 false
              None NcNone None (1 # 10))
           caller_store []).
  - reflexivity.
  - apply components_partition_cover, H_pair_partition.
  - intros node e (ed & Hed & _ & Hn).
    assert (ed ∈ [mkEdge e1_ [a_; b_]]) as Hin by exact Hed.
    rewrite elem_of_cons, elem_of_nil in Hin. destruct Hin as [->|[]].
    exact Hn.
  - intros l d [= <-] Hd. unfold caller_store in Hd.
    rewrite lookup_singleton_eq in Hd. injection Hd as <-.
    intros k Hk. apply lookup_singleton_ne. intros <-.
    revert Hk. by apply (bool_decide_unpack _).
  - intros d. discriminate.
  - vm_compute. eauto.
Defined.

(** * Further properties of the layout *)

(** ** The offsets in closed form *)



(** ** Where a vertex of the position map comes from *)


(** ** No two vertices at the same point *)



(** ** The extent of the layout *)





(** ** Both columns of a component are centred on the same height *)



(** ** What the spacing changes, and what it does not *)

Lemma layout_trace_returns nx G spacing nodeorder cis o :
  is_Some (layout_trace nx G spacing nodeorder cis o) ↔
  ∀ ci, ci ∈ cis → is_Some (component_columns nx nodeorder G ci).
Proof.
  split; [|apply layout_trace_is_Some].
  intros [tr Htr] ci Hci.
  destruct (component_columns nx nodeorder G ci) as [cols|] eqn:Hcols;
    [by eexists|].
  by rewrite (layout_trace_None _ _ _ _ _ _ ci Hci Hcols) in Htr.
Qed.

(** Whether the layout returns or raises depends on the hypergraph, on
    [nodeorder] and on the graph routines only: not on the spacing, the
    width or the orientation. *)
Theorem layout_returns_irrespective nx H nodeorder spacing width flip
    spacing' width' flip' :
  is_Some (layout_two_column nx H spacing width flip nodeorder) ↔
  is_Some (layout_two_column nx H spacing' width' flip' nodeorder).
Proof.
  rewrite !layout_two_column_trace, !fmap_is_Some.
  by rewrite !layout_trace_returns.
Qed.



(** ** Unranked vertices *)

Lemma length_two {A} (l : list A) x y : x ∈ l → y ∈ l → x ≠ y → 2 ≤ length l.
Proof.
  destruct l as [|a [|b l]]; simpl; intros Hx Hy Hne; [| |lia].
  - by apply elem_of_nil in Hx.
  - apply list_elem_of_singleton in Hx, Hy. congruence.
Qed.

Lemma nodeorder_key_unranked nx no Gi key v :
  component_key nx (Some no) Gi = Some key →
  is_str v = false → no !! v = None → key v = None.
Proof.
  intros [= <-] Hstr Hno. apply lookup_union_None. split; [|done].
  apply index_dict_None. rewrite list_elem_of_filter. intros [Hs _].
  by rewrite Hstr in Hs.
Qed.

(** With a [nodeorder], the layout raises whenever a column of a
    component holds two or more vertices of which one is neither a str
    nor ranked by [nodeorder]: a node that the mapping leaves out, or a
    hyperedge whose identifier is not a str and so gets no synthetic
    rank. *)
Theorem unranked_vertex_raises nx H spacing width flip no ci u v :
  ci ∈ connected_components nx (bipartite H) →
  u ∈ ci → v ∈ ci → u ≠ v →
  (u ∈ H_nodes H ∧ v ∈ H_nodes H)
  ∨ ((u ∉ H_nodes H) ∧ (v ∉ H_nodes H)
     ∧ u ∈ edge_uids H ∧ v ∈ edge_uids H) →
  is_str v = false → no !! v = None →
  layout_two_column nx H spacing width flip (Some no) = None.
Proof.
  intros Hci Hu Hv Hne Hcol Hstr Hno.
  rewrite layout_two_column_trace.
  rewrite (layout_trace_None _ _ _ _ _ _ ci Hci); [done|].
  unfold component_columns.
  destruct (component_key nx (Some no) (subgraph (bipartite H) ci))
    as [key|] eqn:Hkey; [|done].
  simpl. pose proof (nodeorder_key_unranked _ _ _ _ v Hkey Hstr Hno) as Hnone.
  destruct Hcol as [[Hun Hvn]|(Hun & Hvn & Hue & Hve)].
  - rewrite (py_sorted_unranked key (side (subgraph (bipartite H) ci) 0) v);
      [done| |  |done].
    + rewrite side_bipartite_nodes.
      apply (length_two _ u v); [| |done]; by apply list_elem_of_filter.
    + rewrite side_bipartite_nodes. by apply list_elem_of_filter.
  - destruct (py_sorted key (side (subgraph (bipartite H) ci) 0)); [|done].
    simpl.
    rewrite (py_sorted_unranked key (side (subgraph (bipartite H) ci) 1) v);
      [done| |  |done].
    + rewrite side_bipartite_edges.
      apply (length_two _ u v); [| |done]; by apply list_elem_of_filter.
    + rewrite side_bipartite_edges. by apply list_elem_of_filter.
Qed.

(** ** Ranks given to strs *)

Lemma mapM_ext_elem {A B} (f g : A → option B) (l : list A) :
  (∀ x, x ∈ l → f x = g x) → mapM f l = mapM g l.
Proof.
  induction l as [|x l IH]; intros Hfg; [done|].
  cbn [mapM]. rewrite (Hfg x) by left.
  rewrite IH; [done|]. intros y Hy. apply Hfg. by right.
Qed.

Lemma py_sorted_ext key key' l :
  (∀ v, v ∈ l → key v = key' v) → py_sorted key l = py_sorted key' l.
Proof.
  intros Hk. destruct l as [|a [|b l]]; [done..|].
  unfold py_sorted.
  rewrite (mapM_ext_elem _ (λ v, (λ k, (k, v)) <$> key' v)); [done|].
  intros v Hv. simpl. by rewrite Hk.
Qed.

Lemma side_vertices Gi j v : v ∈ side Gi j → v ∈ vertices Gi.
Proof.
  unfold side, vertices. intros Hv.
  apply list_elem_of_fmap in Hv as (p & -> & Hp).
  apply list_elem_of_filter in Hp as [_ Hp]. by apply list_elem_of_fmap_2.
Qed.

Lemma layout_trace_columns_ext nx G spacing no no' cis o :
  (∀ ci, ci ∈ cis →
     component_columns nx no G ci = component_columns nx no' G ci) →
  layout_trace nx G spacing no cis o = layout_trace nx G spacing no' cis o.
Proof.
  revert o. induction cis as [|ci cis IH]; intros o Hext; simpl; [done|].
  rewrite (Hext ci) by left.
  destruct (component_columns nx no' G ci) as [[vs es]|]; [|done].
  simpl. rewrite IH; [done|]. intros c Hc. apply Hext. by right.
Qed.

(** A rank that [nodeorder] gives to a str is never used: a str vertex
    is taken for a hyperedge and gets its rank from its place among the
    strs of its component. Two mappings that agree on every identifier
    that is not a str give the same layout. *)
Theorem nodeorder_str_ignored nx H spacing width flip
    (no no' : gmap ident Z) :
  (∀ v, is_str v = false → no !! v = no' !! v) →
  layout_two_column nx H spacing width flip (Some no)
  = layout_two_column nx H spacing width flip (Some no').
Proof.
  intros Hagree. rewrite !layout_two_column_trace.
  rewrite (layout_trace_columns_ext _ _ _ (Some no) (Some no')); [done|].
  intros ci _. unfold component_columns. simpl.
  assert (∀ j v, v ∈ side (subgraph (bipartite H) ci) j →
            (index_dict (filter (λ v, is_str v = true)
               (vertices (subgraph (bipartite H) ci))) ∪ no) !! v
            = (index_dict (filter (λ v, is_str v = true)
                 (vertices (subgraph (bipartite H) ci))) ∪ no') !! v)
    as Hkey.
  { intros j v Hv. apply side_vertices in Hv.
    destruct (is_str v) eqn:Hstr.
    - destruct (index_dict_is_Some
                  (filter (λ v, is_str v = true)
                     (vertices (subgraph (bipartite H) ci))) v) as [i Hi].
      { by apply list_elem_of_filter. }
      by rewrite !(lookup_union_Some_l _ _ _ _ Hi).
    - rewrite !lookup_union_r; [by apply Hagree| |];
        apply index_dict_None; rewrite list_elem_of_filter;
        intros [Hs _]; by rewrite Hstr in Hs. }
  rewrite (py_sorted_ext _ _ _ (Hkey 0)).
  by rewrite (py_sorted_ext _ _ _ (Hkey 1)).
Qed.

(** ** The layout on the sample hypergraphs *)






(** Nodes a, b in one hyperedge and a [nodeorder] that ranks only a. *)
Lemma unranked_vertex_raises_witness :
  layout_two_column NxRef.nx H_pair 0 1 false (Some {[ a_ := 5%Z ]}) = None.
Proof.
  apply (unranked_vertex_raises NxRef.nx H_pair 0 1 false {[ a_ := 5%Z ]}
           [e1_; a_; b_] a_ b_).
  - by apply (bool_decide_unpack _).
  - by apply (bool_decide_unpack _).
  - by apply (bool_decide_unpack _).
  - discriminate.
  - left. split; by apply (bool_decide_unpack _).
  - reflexivity.
  - reflexivity.
Defined.

(** A rank for the hyperedge e1 in [nodeorder] changes nothing. *)
Lemma nodeorder_str_ignored_witness :
  layout_two_column NxRef.nx H_pair 0 1 false
    (Some {[ a_ := 5%Z; b_ := 3%Z ]})
  = layout_two_column NxRef.nx H_pair 0 1 false
      (Some (<[ e1_ := 7%Z ]> {[ a_ := 5%Z; b_ := 3%Z ]})).
Proof.
  apply (nodeorder_str_ignored NxRef.nx H_pair 0 1 false
           {[ a_ := 5%Z; b_ := 3%Z ]}
           (<[ e1_ := 7%Z ]> {[ a_ := 5%Z; b_ := 3%Z ]})).
  intros v Hstr. symmetry. apply lookup_insert_ne.
  intros <-. discriminate Hstr.
Defined.

(** * Further properties: [stack] and the surface left by [draw] *)

(** ** The nested function [stack] *)

(** [stack] writes the keys it is given and no other: with distinct
    vertices, the vertex of index [i] is mapped to the point computed for
    [i], whatever the map held for it before, and every other key keeps
    its entry. *)
Theorem stack_spec offset (pos : gmap ident point) vs x height flip :
  NoDup vs →
  (∀ i v, vs !! i = Some v →
     stack offset pos vs x height flip !! v
     = Some (stack_point offset (length vs) x height flip i))
  ∧ (∀ v, v ∉ vs → stack offset pos vs x height flip !! v = pos !! v).
Proof.
  intros Hnd. unfold stack. split.
  - intros i v Hi.
    by rewrite (stack_from_lookup offset (length vs) x height flip 0 vs pos i v).
  - intros v Hv. by apply stack_from_notin.
Qed.

(** Stacking b, a over a map that already holds a. *)
Lemma stack_spec_witness :
  stack 1 {[ a_ := (7, 7)%Q; c_ := (9, 9)%Q ]} [b_; a_] 0 2 false !! a_
  = Some (stack_point 1 2 0 2 false 1)
  ∧ stack 1 {[ a_ := (7, 7)%Q; c_ := (9, 9)%Q ]} [b_; a_] 0 2 false !! c_
    = Some (9, 9)%Q.
Proof.
  assert (NoDup [b_; a_]) as Hnd by (by apply (bool_decide_unpack _)).
  destruct (stack_spec 1 {[ a_ := (7, 7)%Q; c_ := (9, 9)%Q ]} [b_; a_] 0 2
              false Hnd) as [Hin Hout].
  split.
  - exact (Hin 1 a_ eq_refl).
  - rewrite Hout; [reflexivity|]. by apply (bool_decide_unpack _).
Defined.

(** ** The surface left by [draw] *)

Lemma draw_hyper_edges_inv H (pos : gmap ident point) ax edgecolor nodecolor
    nodesize kwargs ax' :
  draw_hyper_edges H pos ax edgecolor nodecolor nodesize kwargs = Some ax' →
  ∃ segs patches color,
    ax' = ax ++ [LineCollection segs edgecolor (expand_kwargs (pairs H) kwargs);
                 PatchCollection patches nodesize color]
    ∧ segments pos (pairs H) = Some segs
    ∧ mapM (λ node, pos !! node) (H_nodes H) = Some patches.
Proof.
  unfold draw_hyper_edges. intros Hd.
  destruct (segments pos (pairs H)) as [segs|] eqn:Hsegs; [|done].
  simpl in Hd. case_guard as Hg; [|done]. simpl in Hd.
  destruct (mapM (λ node, pos !! node) (H_nodes H)) as [patches|] eqn:Hp;
    [|done].
  simpl in Hd. apply bind_Some in Hd as (color & _ & Hd).
  injection Hd as <-. exists segs, patches, color.
  by rewrite <- (assoc_L (++)).
Qed.

Lemma annotate_all_inv (pos : gmap ident point) labels at_ ha va points anns :
  annotate_all pos labels at_ ha va points = Some anns →
  length anns = length points ∧ Forall is_annotation anns.
Proof.
  intros Ha. apply annotate_all_Some in Ha. split.
  - symmetry. by eapply Forall2_length.
  - induction Ha as [|v a points anns (xy & _ & ->) _ IH]; by constructor.
Qed.

Lemma labels_pass_inv (b : bool) (m : option (list artist)) n anns :
  (∀ l, m = Some l → length l = n ∧ Forall is_annotation l) →
  (if b then m else Some []) = Some anns →
  length anns = (if b then n else 0) ∧ Forall is_annotation anns.
Proof.
  intros Hm Hb. destruct b; [by apply Hm|]. injection Hb as <-.
  split; [done|constructor].
Qed.

Lemma labels_either_inv H (pos : gmap ident point) labels wn we ax
    (flip : bool) ax' :
  (if flip
   then draw_hyper_row_labels H pos labels wn we ax
   else draw_hyper_column_labels H pos labels wn we ax) = Some ax' →
  ∃ anns,
    ax' = ax ++ anns
    ∧ length anns = (if wn then length (H_nodes H) else 0)
                    + (if we then length (H_edges H) else 0)
    ∧ Forall is_annotation anns.
Proof.
  intros Hd.
  assert (∃ at_ ha va ha' va',
    (ns ← (if wn then annotate_all pos labels at_ ha va (H_nodes H)
           else Some []);
     es ← (if we then annotate_all pos labels at_ ha' va' (edge_uids H)
           else Some []);
     Some (ax ++ ns ++ es)) = Some ax') as (at_ & ha & va & ha' & va' & Hd').
  { destruct flip; [|by exists id, "right", "center", "left", "center"].
    by eexists _, "center", "top", "center", "bottom". }
  clear Hd.
  apply bind_Some in Hd' as (ns & Hns & Hd').
  apply bind_Some in Hd' as (es & Hes & Hd'). injection Hd' as <-.
  apply (labels_pass_inv _ _ (length (H_nodes H))) in Hns as [Hn1 Hn2];
    [|apply annotate_all_inv].
  apply (labels_pass_inv _ _ (length (H_edges H))) in Hes as [He1 He2].
  2: { intros l Hl. apply annotate_all_inv in Hl.
       unfold edge_uids in Hl. by rewrite length_fmap in Hl. }
  exists (ns ++ es). split; [done|]. split.
  - by rewrite length_app, Hn1, He1.
  - by apply Forall_app.
Qed.

(** When [draw] returns, colour cycling was off and the layout had
    returned; the surface holds what it held before, then the line
    collection with one segment per membership pair, the patch collection
    with one circle per node, then one annotation per labelled node and
    per labelled hyperedge, and at the end the aspect, autoscale and
    axis-off settings. *)
Theorem draw_surface get_frozenset_label nx H args σ ax ax' :
  (draw get_frozenset_label nx H args σ ax).2 = Some ax' →
  with_color args = false
  ∧ ∃ pos segs patches color kw anns,
      layout_two_column nx H 0 (column_spacing args) (flip_orientation args)
        (nodeorder args) = Some pos
      ∧ ax' = ax ++ [LineCollection segs (edgecolor args) kw;
                     PatchCollection patches (nodesize args) color]
                 ++ anns ++ [SetAspect; AutoscaleView; AxisOff]
      ∧ segments pos (pairs H) = Some segs
      ∧ length segs = length (pairs H)
      ∧ length patches = length (H_nodes H)
      ∧ length anns
        = (if with_node_labels args then length (H_nodes H) else 0)
          + (if with_edge_labels args then length (H_edges H) else 0)
      ∧ Forall is_annotation anns.
Proof.
  intros Hd.
  destruct (with_color args) eqn:Hc.
  { by rewrite color_keyword_twice in Hd. }
  split; [done|]. unfold draw in Hd.
  destruct (edge_kwargs_or_new σ (edge_kwargs args)) as [kw σ0].
  destruct (layout_two_column _ _ _ _ _ _) as [pos|] eqn:Hlay; [|done].
  unfold draw_with_pos in Hd. rewrite Hc in Hd. cbn [snd] in Hd.
  apply bind_Some in Hd as (ax1 & Hedges & Hd).
  apply bind_Some in Hd as (ax2 & Hlabels & Hd). injection Hd as <-.
  apply draw_hyper_edges_inv in Hedges
    as (segs & patches & color & -> & Hsegs & Hp).
  apply labels_either_inv in Hlabels as (anns & -> & Hlen & Hall).
  exists pos, segs, patches, color. eexists. exists anns.
  split_and!; try done.
  - by rewrite <- !(assoc_L (++)).
  - by eapply segments_length.
  - symmetry. by eapply length_mapM.
Qed.

(** Drawing e1 = {a, b} with colour cycling off: two segments, two
    circles, three labels. *)
Lemma draw_surface_witness :
  ∃ ax' segs patches color kw anns,
    (draw (λ _ _, ∅) NxRef.nx H_pair
       (mkDrawArgs true true false false false None 1 false None NcNone None
          (1 # 10)) ∅ []).2 = Some ax'
    ∧ ax' = [] ++ [LineCollection segs None kw;
                   PatchCollection patches (1 # 10) color]
               ++ anns ++ [SetAspect; AutoscaleView; AxisOff]
    ∧ length segs = 2 ∧ length patches = 2 ∧ length anns = 3.
Proof.
  pose (ax' := default [] (draw (λ _ _, ∅) NxRef.nx H_pair
                 (mkDrawArgs true true false false false None 1 false None
                    NcNone None (1 # 10)) ∅ []).2).
  assert ((draw (λ _ _, ∅) NxRef.nx H_pair
             (mkDrawArgs true true false false false None 1 false None NcNone
                None (1 # 10)) ∅ []).2 = Some ax') as Hd
    by (vm_compute; reflexivity).
  destruct (draw_surface _ _ _ _ _ _ _ Hd)
    as (_ & pos & segs & patches & color & kw & anns & _ & Hax & _ & Hs & Hp
        & Ha & _).
  exists ax', segs, patches, color, kw, anns.
  split; [exact Hd|]. split; [exact Hax|].
  split; [exact Hs|]. split; [exact Hp|exact Ha].
Defined.

(** * Further properties: the order within a column *)

Lemma StronglySorted_filter {A} (R : relation A) (P : A → Prop)
    `{!∀ x, Decision (P x)} (l : list A) :
  StronglySorted R l → StronglySorted R (filter P l).
Proof.
  induction 1 as [|x l Hl IH Hx]; [constructor|].
  rewrite filter_cons. destruct (decide (P x)); [|done].
  constructor; [done|]. rewrite Forall_forall in Hx |- *.
  intros y Hy. apply list_elem_of_filter in Hy as [_ Hy]. by apply Hx.
Qed.

Lemma StronglySorted_lookup_2 {A} (R : relation A) (l : list A) :
  (∀ i j u v, l !! i = Some u → l !! j = Some v → i < j → R u v) →
  StronglySorted R l.
Proof.
  induction l as [|x l IH]; intros Hl; constructor.
  - apply IH. intros i j u v Hi Hj Hij. apply (Hl (S i) (S j)); [done..|lia].
  - apply Forall_forall. intros y Hy.
    apply list_elem_of_lookup in Hy as [j Hj].
    apply (Hl 0 (S j)); [done..|lia].
Qed.

Lemma index_dict_sorted l :
  NoDup l → sorted_by (λ v, index_dict l !! v) l.
Proof.
  intros Hnd. apply StronglySorted_lookup_2.
  intros i j u v Hi Hj Hij ku kv.
  rewrite (index_dict_lookup l i u Hnd Hi), (index_dict_lookup l j v Hnd Hj).
  intros [= <-] [= <-]. lia.
Qed.

Lemma index_dict_inj l u v k :
  NoDup l → u ∈ l → v ∈ l →
  index_dict l !! u = Some k → index_dict l !! v = Some k → u = v.
Proof.
  intros Hnd Hu Hv.
  apply list_elem_of_lookup in Hu as [i Hi].
  apply list_elem_of_lookup in Hv as [j Hj].
  rewrite (index_dict_lookup l i u Hnd Hi), (index_dict_lookup l j v Hnd Hj).
  intros [= <-] [= Hij]. apply Nat2Z.inj in Hij as ->.
  rewrite Hi in Hj. by injection Hj.
Qed.

Lemma index_sorted_unique order (P : ident → Prop) `{!∀ x, Decision (P x)}
    (ci vs : list ident) :
  NoDup order → order ≡ₚ ci →
  vs ≡ₚ filter P ci → sorted_by (λ v, index_dict order !! v) vs →
  vs = filter P order.
Proof.
  intros Hnd Hperm Hvs Hsorted.
  apply (StronglySorted_unique_strong
           (rank_le (λ v, index_dict order !! v))); [|done| |].
  - intros x1 x2 H1 H2 H12 H21.
    assert (x1 ∈ order) as Hx1.
    { rewrite Hvs in H1. apply list_elem_of_filter in H1 as [_ H1].
      by rewrite Hperm. }
    assert (x2 ∈ order) as Hx2 by (by apply list_elem_of_filter in H2 as [_ ?]).
    destruct (index_dict_is_Some order x1 Hx1) as [k1 Hk1].
    destruct (index_dict_is_Some order x2 Hx2) as [k2 Hk2].
    pose proof (H12 k1 k2 Hk1 Hk2). pose proof (H21 k2 k1 Hk2 Hk1).
    assert (k1 = k2) as -> by lia. by eapply index_dict_inj.
  - by apply StronglySorted_filter, index_dict_sorted.
  - by rewrite Hvs, Hperm.
Qed.

(** Without a [nodeorder], each column of a component lists its vertices
    in the order in which [spectral_ordering] returns them: when the
    routine returns the vertices of the component, each once, the node
    column is that ordering restricted to the nodes and the hyperedge
    column is that ordering restricted to the hyperedges. *)
Theorem spectral_order_columns nx H spacing tr k ci p order :
  layout_trace nx (bipartite H) spacing None
    (connected_components nx (bipartite H)) 0 = Some tr →
  connected_components nx (bipartite H) !! k = Some ci →
  tr !! k = Some p →
  spectral_ordering nx (subgraph (bipartite H) ci) = Some order →
  NoDup order → order ≡ₚ ci →
  pl_vertices p = filter (λ v, v ∈ H_nodes H) order
  ∧ pl_edges p = filter (λ v, (v ∉ H_nodes H) ∧ v ∈ edge_uids H) order.
Proof.
  intros Htr Hci Hp Hso Hnd Hperm.
  pose proof (layout_trace_columns _ _ _ _ _ _ _ _ _ _ Htr Hci Hp) as Hcols.
  destruct (component_columns_perm _ _ _ _ _ _ Hcols) as [Hvs Hes].
  destruct (component_columns_sorted _ _ _ _ _ _ Hcols)
    as (key & Hkey & Hsv & Hse).
  unfold component_key in Hkey. rewrite Hso in Hkey. simpl in Hkey.
  injection Hkey as <-.
  rewrite side_bipartite_nodes in Hvs. rewrite side_bipartite_edges in Hes.
  split; by eapply index_sorted_unique.
Qed.

(** For e1 = {a, b} the ordering routine of [NxRef] returns e1, a, b: the
    node column is a, b and the hyperedge column is e1. *)
Lemma spectral_order_columns_witness :
  ∃ tr p,
    layout_trace NxRef.nx (bipartite H_pair) 0 None
      (connected_components NxRef.nx (bipartite H_pair)) 0 = Some tr
    ∧ tr !! 0 = Some p
    ∧ pl_vertices p = [a_; b_] ∧ pl_edges p = [e1_].
Proof.
  pose (tr := default [] (layout_trace NxRef.nx (bipartite H_pair) 0 None
                 (connected_components NxRef.nx (bipartite H_pair)) 0)).
  assert (layout_trace NxRef.nx (bipartite H_pair) 0 None
            (connected_components NxRef.nx (bipartite H_pair)) 0 = Some tr)
    as Htr by (vm_compute; reflexivity).
  destruct (tr !! 0) as [p|] eqn:Hp; [|vm_compute in Hp; discriminate].
  exists tr, p. split; [exact Htr|]. split; [exact Hp|].
  assert (NoDup [e1_; a_; b_]) as Hnd by (by apply (bool_decide_unpack _)).
  destruct (spectral_order_columns NxRef.nx H_pair 0 tr 0 [e1_; a_; b_] p
              [e1_; a_; b_] Htr eq_refl Hp eq_refl Hnd
              (Permutation_refl _)) as [Hvs Hes].
  split; [rewrite Hvs|rewrite Hes]; vm_compute; reflexivity.
Defined.
